(** * Sticker Factory: the label image pipeline of [image_utils.py]

    A shallow embedding of the image preparation functions of the
    Sticker Factory ([preper_image], [apply_threshold],
    [resize_image_to_width], [apply_levels], [img_concat_v],
    [determine_tile_rows], [split_image_into_tiles]) together with the
    parts of Python and of Pillow they rest on:

    - [Py]: Python numbers.  Integers are unbounded ([Z]); floats are
      IEEE 754 binary64 values, computed with the executable
      specification [SpecFloat] of the standard library, so that
      [int((label_width / width) * height)] is evaluated bit for bit as
      CPython evaluates it.  Exceptions are the [Raise] results of an
      error monad.
    - [PIL]: Pillow images (mode, size, samples) and the operations the
      pipeline calls.  What Pillow computes numerically for resampling,
      dithering and alpha blending is left to a [Backend]; sizes, modes
      and the geometry of [paste] and [crop] are modelled concretely.
    - [ImageUtils]: the functions of [image_utils.py], line by line. *)

From Stdlib Require Import ZArith List Bool Lia SpecFloat QArith Lqa.
Import ListNotations.
Local Open Scope Z_scope.

(* ================================================================= *)
(** ** Python numbers and exceptions *)

Module Py.

Inductive exn : Type :=
| ZeroDivisionError
| OverflowError
| ValueError.

Inductive result (A : Type) : Type :=
| Ok (a : A)
| Raise (e : exn).

Arguments Ok {A} a.
Arguments Raise {A} e.

Definition bind {A B : Type} (r : result A) (k : A -> result B) : result B :=
  match r with
  | Ok a => k a
  | Raise e => Raise e
  end.

Definition returns {A : Type} (r : result A) : bool :=
  match r with
  | Ok _ => true
  | Raise _ => false
  end.

(** [for x in xs: ...] with a body that may raise. *)
Fixpoint mapM {A B : Type} (f : A -> result B) (xs : list A) : result (list B) :=
  match xs with
  | [] => Ok []
  | x :: xs' =>
      bind (f x) (fun y => bind (mapM f xs') (fun ys => Ok (y :: ys)))
  end.

(** [range(n)] *)
Definition range (n : Z) : list Z := map Z.of_nat (seq 0 (Z.to_nat n)).

(** *** binary64 *)

Definition float : Type := spec_float.

Definition prec : Z := 53.
Definition emax : Z := 1024.

Definition is_finite (x : float) : bool :=
  match x with
  | S754_zero _ | S754_finite _ _ _ => true
  | S754_infinity _ | S754_nan => false
  end.

Definition is_zero (x : float) : bool :=
  match x with
  | S754_zero _ => true
  | _ => false
  end.

(** The rational a finite float stands for ([0] for the others). *)
Definition float_value (x : float) : Q :=
  match x with
  | S754_finite s m e =>
      let n := if s then Z.neg m else Z.pos m in
      match e with
      | Z.neg k => n # (2 ^ k)
      | _ => inject_Z (n * 2 ^ e)
      end
  | _ => 0%Q
  end.

(** An integer as an exact (not yet rounded) binary number. *)
Definition exact_int (z : Z) : float :=
  match z with
  | Z0 => S754_zero false
  | Z.pos p => S754_finite false p 0
  | Z.neg p => S754_finite true p 0
  end.

(** [float(z)]: round to nearest, ties to even; [OverflowError] when
    the integer is beyond the largest float. *)
Definition float_of_int (z : Z) : result float :=
  let x := binary_normalize prec emax z 0 false in
  if is_finite x then Ok x else Raise OverflowError.

(** [a / b] on two integers: the correctly rounded quotient. *)
Definition int_truediv (a b : Z) : result float :=
  if b =? 0 then Raise ZeroDivisionError
  else
    let q := SFdiv prec emax (exact_int a) (exact_int b) in
    if is_finite q then Ok q else Raise OverflowError.

(** [x / y] on two floats. *)
Definition float_truediv (x y : float) : result float :=
  if is_zero y then Raise ZeroDivisionError
  else Ok (SFdiv prec emax x y).

(** [x * y] on two floats: no exception, overflow gives an infinity. *)
Definition float_mul (x y : float) : float := SFmul prec emax x y.

(** A number the caller passes in: an [int] or a [float]. *)
Inductive num : Type :=
| Int (z : Z)
| Float (x : float).

Definition to_float (n : num) : result float :=
  match n with
  | Int z => float_of_int z
  | Float x => Ok x
  end.

(** [a / b] *)
Definition truediv (a b : num) : result float :=
  match a, b with
  | Int x, Int y => int_truediv x y
  | _, _ =>
      bind (to_float a) (fun x =>
      bind (to_float b) (fun y =>
      float_truediv x y))
  end.

(** [x * b] and [a * y] with a float on one side: the other operand is
    converted to a float first. *)
Definition mul_float_num (x : float) (b : num) : result float :=
  bind (to_float b) (fun y => Ok (float_mul x y)).

Definition mul_num_float (a : num) (y : float) : result float :=
  bind (to_float a) (fun x => Ok (float_mul x y)).

(** Magnitude of a finite float cut to an integer, and what is cut off
    compared with one half: [Lt], [Eq] or [Gt]. *)
Definition magnitude (m : positive) (e : Z) : Z :=
  match e with
  | Z.neg k => Z.pos m / 2 ^ Z.pos k
  | _ => Z.pos m * 2 ^ e
  end.

Definition fraction_vs_half (m : positive) (e : Z) : comparison :=
  match e with
  | Z.neg k => (2 * (Z.pos m mod 2 ^ Z.pos k)) ?= 2 ^ Z.pos k
  | _ => Lt
  end.

Definition signed (s : bool) (a : Z) : Z := if s then - a else a.

(** [int(x)]: truncation toward zero. *)
Definition int_of_float (x : float) : result Z :=
  match x with
  | S754_zero _ => Ok 0
  | S754_finite s m e => Ok (signed s (magnitude m e))
  | S754_infinity _ => Raise OverflowError
  | S754_nan => Raise ValueError
  end.

(** [round(x)]: to the nearest integer, ties to the even one. *)
Definition round (x : float) : result Z :=
  match x with
  | S754_zero _ => Ok 0
  | S754_finite s m e =>
      let q := magnitude m e in
      let up :=
        match fraction_vs_half m e with
        | Lt => false
        | Eq => Z.odd q
        | Gt => true
        end in
      Ok (signed s (if up then q + 1 else q))
  | S754_infinity _ => Raise OverflowError
  | S754_nan => Raise ValueError
  end.

(** The literal [25.4]: the float nearest to 254/10. *)
Definition lit_25_4 : float := S754_finite false 7149464408450662 (-48).

End Py.

Import Py.

Declare Scope py_scope.
Delimit Scope py_scope with py.
Notation "x <- c1 ;; c2" := (bind c1 (fun x => c2))
  (at level 61, c1 at next level, right associativity) : py_scope.
Notation "' pat <- c1 ;; c2" := (bind c1 (fun x => match x with pat => c2 end))
  (at level 61, pat pattern, c1 at next level, right associativity) : py_scope.
Local Open Scope py_scope.

(* ================================================================= *)
(** ** Pillow images *)

Module PIL.

(** The modes the pipeline meets: ["1"], ["L"], ["RGB"], ["RGBA"]. *)
Inductive Mode : Type := M1 | ML | MRGB | MRGBA.

Definition mode_eqb (a b : Mode) : bool :=
  match a, b with
  | M1, M1 | ML, ML | MRGB, MRGB | MRGBA, MRGBA => true
  | _, _ => false
  end.

Definition bands (m : Mode) : nat :=
  match m with
  | M1 | ML => 1
  | MRGB => 3
  | MRGBA => 4
  end.

(** Resampling filters named by the pipeline; [BICUBIC] is the default
    of [Image.resize]. *)
Inductive filter : Type := NEAREST | BICUBIC | LANCZOS.

(** An image: its mode, its size and one byte per pixel and band,
    addressed by column [x], row [y] and band.  A ["1"] image stores
    [0] or [255], as Pillow does. *)
Record Image : Type := mkImage {
  mode : Mode;
  width : Z;
  height : Z;
  px : Z -> Z -> nat -> Z
}.

Definition size (im : Image) : Z * Z := (width im, height im).

(** [im.getpixel((x, y))], as the list of its band values. *)
Definition getpixel (im : Image) (x y : Z) : list Z :=
  map (px im x y) (seq 0 (bands (mode im))).

Definition size_valid (im : Image) : Prop :=
  0 <= width im /\ 0 <= height im.

Definition samples_valid (im : Image) : Prop :=
  forall x y b, 0 <= x < width im -> 0 <= y < height im ->
    (b < bands (mode im))%nat -> 0 <= px im x y b <= 255.

(** Same mode, same size, same samples. *)
Definition same_image (a b : Image) : Prop :=
  mode a = mode b /\ width a = width b /\ height a = height b /\
  forall x y k, 0 <= x < width a -> 0 <= y < height a ->
    (k < bands (mode a))%nat -> px a x y k = px b x y k.

(** What Pillow computes numerically and the pipeline only passes on:
    the resampling kernels of [resize], the error diffusion of
    [convert("1")] and the blending of [alpha_composite]. *)
Class Backend : Type := {
  resample : filter -> Mode -> Z * Z -> (Z -> Z -> nat -> Z) -> Z * Z ->
             Z -> Z -> nat -> Z;
  dither : Mode -> Z * Z -> (Z -> Z -> nat -> Z) -> Z -> Z -> Z;
  blend : list Z -> list Z -> list Z
}.

Definition clip8 (v : Z) : Z := Z.max 0 (Z.min 255 v).

(** [Image.new(mode, size, color)]; [color] lists the band values. *)
Definition new (m : Mode) (sz : Z * Z) (color : list Z) : result Image :=
  let '(w, h) := sz in
  if (w <? 0) || (h <? 0) then Raise ValueError
  else Ok {| mode := m; width := w; height := h;
             px := fun _ _ b => nth b color 0 |}.

Definition white_rgba : list Z := [255; 255; 255; 255].
Definition white_rgb : list Z := [255; 255; 255].
Definition black : list Z := [0; 0; 0].

(** ITU-R 601-2 luma, as [convert("L")] computes it on [RGB]. *)
Definition rgb2l (r g b : Z) : Z :=
  Z.shiftr (r * 19595 + g * 38470 + b * 7471 + 32768) 16.

Definition luma (im : Image) (x y : Z) : Z :=
  match mode im with
  | M1 => if px im x y 0%nat =? 0 then 0 else 255
  | ML => px im x y 0%nat
  | MRGB | MRGBA =>
      rgb2l (px im x y 0%nat) (px im x y 1%nat) (px im x y 2%nat)
  end.

Definition colour (im : Image) (x y : Z) (b : nat) : Z :=
  match mode im with
  | M1 => if px im x y 0%nat =? 0 then 0 else 255
  | ML => px im x y 0%nat
  | MRGB | MRGBA => px im x y b
  end.

Section WithBackend.
Context {backend : Backend}.

(** [im.convert(m)] ([convert("1")] dithers by default). *)
Definition convert (im : Image) (m : Mode) : Image :=
  if mode_eqb (mode im) m then im
  else
    {| mode := m; width := width im; height := height im;
       px := match m with
             | ML => fun x y _ => luma im x y
             | MRGB => fun x y b => colour im x y b
             | MRGBA => fun x y b =>
                 match b, mode im with
                 | 3%nat, MRGBA => px im x y 3%nat
                 | 3%nat, _ => 255
                 | _, _ => colour im x y b
                 end
             | M1 => fun x y _ => dither (mode im) (size im) (px im) x y
             end |}.

(** [Image.alpha_composite(im1, im2)] *)
Definition alpha_composite (im1 im2 : Image) : result Image :=
  if mode_eqb (mode im1) MRGBA && mode_eqb (mode im2) MRGBA
     && (width im1 =? width im2) && (height im1 =? height im2)
  then Ok {| mode := MRGBA; width := width im1; height := height im1;
             px := fun x y b =>
               nth b (blend (getpixel im1 x y) (getpixel im2 x y)) 0 |}
  else Raise ValueError.

(** [im.resize(size, resample)]: a copy when the size is unchanged,
    [ValueError] when a side is below 1. *)
Definition resize (im : Image) (sz : Z * Z) (f : filter) : result Image :=
  let '(w, h) := sz in
  if (width im =? w) && (height im =? h) then Ok im
  else if (w <? 1) || (h <? 1) then Raise ValueError
  else
    let f' := if mode_eqb (mode im) M1 then NEAREST else f in
    Ok {| mode := mode im; width := w; height := h;
          px := resample f' (mode im) (size im) (px im) sz |}.

(** [im.crop((left, upper, right, lower))] *)
Definition crop (im : Image) (box : Z * Z * Z * Z) : result Image :=
  let '(x0, y0, x1, y1) := box in
  if x1 <? x0 then Raise ValueError
  else if y1 <? y0 then Raise ValueError
  else Ok {| mode := mode im; width := x1 - x0; height := y1 - y0;
             px := fun x y b =>
               if (0 <=? x + x0) && (x + x0 <? width im)
                  && (0 <=? y + y0) && (y + y0 <? height im)
               then px im (x + x0) (y + y0) b else 0 |}.

(** [dst.paste(src, (ox, oy))]: [src] is converted to the mode of
    [dst] (an [RGBA] source keeps its colour bands on an [RGB]
    destination), clipped to [dst], and copied; the rest of [dst] is
    left as it was. *)
Definition paste (dst src : Image) (at_ : Z * Z) : Image :=
  let '(ox, oy) := at_ in
  let src' :=
    if mode_eqb (mode dst) MRGB && mode_eqb (mode src) MRGBA then src
    else convert src (mode dst) in
  {| mode := mode dst; width := width dst; height := height dst;
     px := fun x y b =>
       if (ox <=? x) && (x <? ox + width src)
          && (oy <=? y) && (y <? oy + height src)
       then px src' (x - ox) (y - oy) b
       else px dst x y b |}.

(** [im.point(lut, mode)] on an ["L"] image with a table of 256
    entries, the only use the pipeline makes of it. *)
Definition point (im : Image) (lut : list Z) (m : option Mode) : result Image :=
  if mode_eqb (mode im) ML && (Z.of_nat (length lut) =? 256) then
    Ok {| mode := match m with Some m' => m' | None => mode im end;
          width := width im; height := height im;
          px := fun x y _ => clip8 (nth (Z.to_nat (px im x y 0%nat)) lut 0) |}
  else Raise ValueError.

End WithBackend.

End PIL.

Import PIL.

(* ================================================================= *)
(** ** [image_utils.py] *)

Module ImageUtils.

Section Pipeline.
Context {backend : Backend}.

(** The alpha step shared by [preper_image] and
    [split_image_into_tiles]: an ["RGBA"] image is composited onto a
    white background of its size and converted to ["RGB"]. *)
Definition flatten_alpha (image : Image) : result Image :=
  if mode_eqb (mode image) MRGBA then
    background <- new MRGBA (size image) white_rgba ;;
    image <- alpha_composite background image ;;
    Ok (convert image MRGB)
  else Ok image.

(** [int((label_width / width) * height)] *)
Definition scaled_height (label_width w h : Z) : result Z :=
  ratio <- int_truediv label_width w ;;
  product <- mul_float_num ratio (Int h) ;;
  int_of_float product.

(** The same product read with [round] in place of [int]:
    [round((label_width / width) * height)]. *)
Definition rounded_height (label_width w h : Z) : result Z :=
  ratio <- int_truediv label_width w ;;
  product <- mul_float_num ratio (Int h) ;;
  round product.

Definition to_grayscale (image : Image) : Image :=
  if negb (mode_eqb (mode image) ML) then convert image ML else image.

Definition preper_image (image : Image) (label_width : Z)
  : result (Image * Image) :=
  image <- flatten_alpha image ;;
  let '(w, h) := size image in
  image <- (if negb (w =? label_width) then
              new_height <- scaled_height label_width w h ;;
              resize image (label_width, new_height) BICUBIC
            else Ok image) ;;
  let grayscale_image := to_grayscale image in
  let dithered_image := convert grayscale_image M1 in
  Ok (grayscale_image, dithered_image).

Definition threshold_lut (threshold : Z) : list Z :=
  map (fun i => if i >? threshold then 255 else 0) (range 256).

Definition apply_threshold (image : Image) (threshold : Z) : result Image :=
  let image := to_grayscale image in
  let lut := threshold_lut threshold in
  point image lut (Some M1).

(** [int(target_width_mm / 25.4 * current_dpi)] *)
Definition target_width_px (target_width_mm current_dpi : num) : result Z :=
  target_width_inch <- truediv target_width_mm (Float lit_25_4) ;;
  product <- mul_float_num target_width_inch current_dpi ;;
  int_of_float product.

(** [round(target_width_mm / 25.4 * current_dpi)], the reading with
    [round] in place of [int]. *)
Definition rounded_width_px (target_width_mm current_dpi : num) : result Z :=
  target_width_inch <- truediv target_width_mm (Float lit_25_4) ;;
  product <- mul_float_num target_width_inch current_dpi ;;
  round product.

(** [int(image.height * (target_width_px / current_width))] *)
Definition resized_height (target_px current_width h : Z) : result Z :=
  scale_factor <- int_truediv target_px current_width ;;
  product <- mul_num_float (Int h) scale_factor ;;
  int_of_float product.

Definition resize_image_to_width (image : Image) (target_width_mm : num)
    (label_width : Z) (current_dpi : num) : result Image :=
  target_px <- target_width_px target_width_mm current_dpi ;;
  let current_width := width image in
  new_height <- resized_height target_px current_width (height image) ;;
  resized_image <- resize image (target_px, new_height) LANCZOS ;;
  if target_px <? label_width then
    new_image <- new MRGB (label_width, new_height) white_rgb ;;
    Ok (paste new_image resized_image ((label_width - target_px) / 2, 0))
  else Ok resized_image.

(** One pass of the loop over [range(256)] in [apply_levels]. *)
Definition levels_entry (black_point white_point i : Z) : result Z :=
  if i <=? black_point then Ok 0
  else if i >=? white_point then Ok 255
  else
    normalized <- int_truediv (i - black_point) (white_point - black_point) ;;
    product <- mul_float_num normalized (Int 255) ;;
    int_of_float product.

Definition levels_lut (black_point white_point : Z) : result (list Z) :=
  mapM (levels_entry black_point white_point) (range 256).

Definition apply_levels (image : Image) (black_point white_point : Z)
  : result Image :=
  let image := to_grayscale image in
  lut <- levels_lut black_point white_point ;;
  point image lut None.

Definition img_concat_v (im1 im2 : Image) (image_width : Z) : result Image :=
  dst <- new MRGB (width im1, height im1 + image_width) black ;;
  let dst := paste dst im1 (0, 0) in
  im2 <- resize im2 (image_width, image_width) BICUBIC ;;
  let dst := paste dst im2 (0, height im1) in
  Ok dst.

Definition determine_tile_rows (image : Image) (label_width : Z) : Z := 2.

(** Lines 127-138 of [split_image_into_tiles]: the image the tiles are
    cut from. *)
Definition tile_source (image : Image) (label_width : Z) : result Image :=
  image <- flatten_alpha image ;;
  let '(w, h) := size image in
  if negb (w =? label_width) then
    new_height <- scaled_height label_width w h ;;
    resize image (label_width, new_height) LANCZOS
  else Ok image.

(** The loop [for i in range(num_rows)], with its two accumulators
    [tiles] and [y_offset]. *)
Fixpoint tile_loop (image : Image) (tile_height remainder num_rows : Z)
    (indices : list Z) (tiles : list Image) (y_offset : Z)
  : result (list Image) :=
  match indices with
  | [] => Ok tiles
  | i :: rest =>
      let current_tile_height :=
        tile_height + (if i =? num_rows - 1 then remainder else 0) in
      tile <- crop image (0, y_offset, width image,
                          y_offset + current_tile_height) ;;
      tile_loop image tile_height remainder num_rows rest
                (tiles ++ [tile]) (y_offset + current_tile_height)
  end.

(** Lines 140-160: cutting [image] into [num_rows] tiles.  [//] and
    [%] raise on a zero divisor. *)
Definition cut_tiles (image : Image) (num_rows : Z) : result (list Image) :=
  let '(w, h) := size image in
  if num_rows =? 0 then Raise ZeroDivisionError
  else
    let tile_height := h / num_rows in
    let remainder := h mod num_rows in
    tile_loop image tile_height remainder num_rows (range num_rows) [] 0.

Definition split_image_into_tiles (image : Image) (label_width num_rows : Z)
  : result (list Image) :=
  image <- tile_source image label_width ;;
  cut_tiles image num_rows.

End Pipeline.

End ImageUtils.

Import ImageUtils.

(* ================================================================= *)
(** ** A reference backend and sample images

    A backend simple enough to evaluate: nearest-neighbour resampling
    in integer arithmetic, a fixed cut at 128 in place of error
    diffusion, and "source over" blending.  The theorems below hold for
    every backend; this one serves to run the pipeline on examples. *)

Module Samples.

Definition nearest (f : filter) (m : Mode) (src_size : Z * Z)
    (p : Z -> Z -> nat -> Z) (dst_size : Z * Z) : Z -> Z -> nat -> Z :=
  fun x y b =>
    p (x * fst src_size / Z.max 1 (fst dst_size))
      (y * snd src_size / Z.max 1 (snd dst_size)) b.

Definition cut_at_128 (m : Mode) (sz : Z * Z) (p : Z -> Z -> nat -> Z)
  : Z -> Z -> Z :=
  fun x y => if p x y 0%nat >? 128 then 255 else 0.

Definition source_over (below above : list Z) : list Z :=
  let a := nth 3 above 0 in
  map (fun b => (nth b above 0 * a + nth b below 0 * (255 - a)) / 255)
      [0; 1; 2]%nat ++ [255].

#[export] Instance reference_backend : Backend :=
  {| resample := nearest; dither := cut_at_128; blend := source_over |}.

(** A 100 by 100 grayscale gradient. *)
Definition gradient : Image :=
  {| mode := ML; width := 100; height := 100;
     px := fun x y _ => (x + y) mod 256 |}.

(** A 1000 by 1001 colour image. *)
Definition poster : Image :=
  {| mode := MRGB; width := 1000; height := 1001;
     px := fun x y b => (x + 2 * y + Z.of_nat b) mod 256 |}.

(** A 21 by 21 bilevel checkerboard, like a small QR code. *)
Definition checker : Image :=
  {| mode := M1; width := 21; height := 21;
     px := fun x y _ => if Z.even (x + y) then 255 else 0 |}.

(** A label of 696 by 120 pixels, white. *)
Definition label : Image :=
  {| mode := MRGB; width := 696; height := 120;
     px := fun _ _ _ => 255 |}.

End Samples.

Import Samples.

(* ================================================================= *)
(** ** Vocabulary of the statements *)

(** The sum of the heights of a list of tiles. *)
Definition sum_heights (tiles : list Image) : Z :=
  fold_right Z.add 0 (map height tiles).

(** The height the loop of [split_image_into_tiles] gives to tile [i]:
    [tile_height + (remainder if i == num_rows - 1 else 0)]. *)
Definition tile_height_at (tile_height remainder num_rows i : Z) : Z :=
  tile_height + (if i =? num_rows - 1 then remainder else 0).

(** Column [x] lies in the band of width [t] centred on a canvas of
    width [label_width], where [resize_image_to_width] pastes. *)
Definition in_centre_band (label_width t x : Z) : bool :=
  ((label_width - t) / 2 <=? x) && (x <? (label_width - t) / 2 + t).

(** A float is zero, or finite with mantissa and exponent together at
    most [B] (so that its magnitude is below [2^B]) and exponent at
    most [E]. *)
Definition within (B E : Z) (x : float) : Prop :=
  match x with
  | S754_zero _ => True
  | S754_finite _ m e => Zdigits2 (Z.pos m) + e <= B /\ e <= E
  | _ => False
  end.

(** [N / D] lies in [[m, m + 1)] and [l] tells where: on [m], below,
    on or above the middle. *)
Definition located (m : Z) (l : location) (N D : Z) : Prop :=
  m * D <= N < (m + 1) * D /\
  match l with
  | loc_Exact => N = m * D
  | loc_Inexact c => N <> m * D /\ (2 * (N - m * D) ?= D) = c
  end.

(** The unit roundoff of binary64: [2^-53]. *)
Definition unit_roundoff : Q := 1 # 9007199254740992.

(** [R] is an integer nearest to [num / den]. *)
Definition nearest_integer (R num den : Z) : Prop :=
  2 * Z.abs (R * den - num) <= den.

(* ================================================================= *)
(** ** Results and loops *)

Lemma bind_Ok {A B : Type} (r : result A) (k : A -> result B) (b : B) :
  bind r k = Ok b -> exists a, r = Ok a /\ k a = Ok b.
Proof.
  destruct r as [a | e]; simpl; intros H.
  - exists a; split; [reflexivity | exact H].
  - discriminate H.
Qed.

(** Reading a computed feature [f] of a result back as a statement
    about the result. *)
Lemma bind_value {A B : Type} (r : result A) (f : A -> B) (v : B) :
  bind r (fun a => Ok (f a)) = Ok v -> exists a, r = Ok a /\ f a = v.
Proof.
  intros H. apply bind_Ok in H. destruct H as (a & Ha & H).
  exists a. split; [exact Ha |]. injection H as H. exact H.
Qed.

Lemma mapM_total {A B : Type} (f : A -> result B) (g : A -> B) (xs : list A) :
  (forall x, In x xs -> f x = Ok (g x)) -> mapM f xs = Ok (map g xs).
Proof.
  induction xs as [| x xs IH]; intros Hf; simpl.
  - reflexivity.
  - rewrite (Hf x (or_introl eq_refl)); simpl.
    rewrite IH by (intros y Hy; apply Hf; right; exact Hy).
    reflexivity.
Qed.

Lemma range_length (n : Z) : 0 <= n -> Z.of_nat (length (range n)) = n.
Proof.
  intros Hn. unfold range. rewrite length_map, length_seq. lia.
Qed.

Lemma In_range (n i : Z) : In i (range n) <-> 0 <= i < n.
Proof.
  unfold range. rewrite in_map_iff. split.
  - intros (k & <- & Hk). apply in_seq in Hk. lia.
  - intros Hi. exists (Z.to_nat i). split; [lia |]. apply in_seq. lia.
Qed.

Lemma nth_range {A : Type} (g : Z -> A) (n i : Z) (d : A) :
  0 <= i < n -> nth (Z.to_nat i) (map g (range n)) d = g i.
Proof.
  intros Hi. unfold range. rewrite map_map.
  rewrite (nth_indep _ d (g (Z.of_nat 0))) by (rewrite length_map, length_seq; lia).
  rewrite (map_nth (fun k => g (Z.of_nat k)) (seq 0 (Z.to_nat n)) 0%nat).
  rewrite seq_nth by lia. simpl. f_equal. lia.
Qed.

Lemma nth_range_id (n i d : Z) :
  0 <= i < n -> nth (Z.to_nat i) (range n) d = i.
Proof.
  intros Hi. rewrite <- (map_id (range n)). apply (nth_range (fun z => z)). exact Hi.
Qed.

(* ================================================================= *)
(** ** Modes and sizes through the Pillow operations *)

Section PillowFacts.
Context {backend : Backend}.

Lemma mode_eqb_eq (a b : Mode) : mode_eqb a b = true <-> a = b.
Proof. destruct a, b; simpl; split; intros H; congruence. Qed.

Lemma mode_eqb_refl (a : Mode) : mode_eqb a a = true.
Proof. destruct a; reflexivity. Qed.

Lemma convert_mode (im : Image) (m : Mode) : mode (convert im m) = m.
Proof.
  unfold convert. destruct (mode_eqb (mode im) m) eqn:E.
  - apply mode_eqb_eq. exact E.
  - reflexivity.
Qed.

Lemma convert_size (im : Image) (m : Mode) :
  width (convert im m) = width im /\ height (convert im m) = height im.
Proof.
  unfold convert. destruct (mode_eqb (mode im) m); split; reflexivity.
Qed.

Lemma to_grayscale_mode (im : Image) : mode (to_grayscale im) = ML.
Proof.
  unfold to_grayscale. destruct (mode_eqb (mode im) ML) eqn:E; simpl.
  - apply mode_eqb_eq. exact E.
  - apply convert_mode.
Qed.

Lemma to_grayscale_size (im : Image) :
  width (to_grayscale im) = width im /\ height (to_grayscale im) = height im.
Proof.
  unfold to_grayscale. destruct (negb (mode_eqb (mode im) ML)).
  - apply convert_size.
  - split; reflexivity.
Qed.

Lemma to_grayscale_gray (im : Image) : mode im = ML -> to_grayscale im = im.
Proof.
  intros H. unfold to_grayscale. rewrite H. reflexivity.
Qed.

Lemma to_grayscale_luma (im : Image) (x y : Z) :
  px (to_grayscale im) x y 0%nat = luma im x y.
Proof.
  unfold to_grayscale, convert.
  destruct (mode_eqb (mode im) ML) eqn:E; simpl.
  - apply mode_eqb_eq in E. unfold luma. rewrite E. reflexivity.
  - reflexivity.
Qed.

Lemma point_Ok (im : Image) (lut : list Z) (m : option Mode) :
  mode im = ML -> Z.of_nat (length lut) = 256 ->
  point im lut m =
  Ok {| mode := match m with Some m' => m' | None => mode im end;
        width := width im; height := height im;
        px := fun x y _ => clip8 (nth (Z.to_nat (px im x y 0%nat)) lut 0) |}.
Proof.
  intros Hm Hl. unfold point. rewrite Hm, Hl. reflexivity.
Qed.

Lemma flatten_alpha_size (image flat : Image) :
  flatten_alpha image = Ok flat ->
  width flat = width image /\ height flat = height image.
Proof.
  unfold flatten_alpha. destruct (mode_eqb (mode image) MRGBA).
  - unfold new, size.
    destruct ((width image <? 0) || (height image <? 0)); simpl; [discriminate |].
    unfold alpha_composite; simpl.
    destruct (mode_eqb (mode image) MRGBA && (width image =? width image)
              && (height image =? height image)); simpl; [| discriminate].
    intros H. injection H as <-. split; reflexivity.
  - intros H. injection H as <-. split; reflexivity.
Qed.

Lemma resize_size (im out : Image) (w h : Z) (f : filter) :
  resize im (w, h) f = Ok out -> width out = w /\ height out = h.
Proof.
  unfold resize.
  destruct ((width im =? w) && (height im =? h)) eqn:E.
  - intros H. injection H as <-. apply andb_prop in E. lia.
  - destruct ((w <? 1) || (h <? 1)); [discriminate |].
    intros H. injection H as <-. split; reflexivity.
Qed.

Lemma resize_mode (im out : Image) (sz : Z * Z) (f : filter) :
  resize im sz f = Ok out -> mode out = mode im.
Proof.
  unfold resize. destruct sz as [w h].
  destruct ((width im =? w) && (height im =? h)).
  - intros H. injection H as <-. reflexivity.
  - destruct ((w <? 1) || (h <? 1)); [discriminate |].
    intros H. injection H as <-. reflexivity.
Qed.

Lemma resize_Ok (im : Image) (w h : Z) (f : filter) :
  1 <= w -> 1 <= h -> exists out, resize im (w, h) f = Ok out.
Proof.
  intros Hw Hh. unfold resize.
  destruct ((width im =? w) && (height im =? h)); [eexists; reflexivity |].
  replace ((w <? 1) || (h <? 1)) with false by (symmetry; apply orb_false_iff; lia).
  eexists; reflexivity.
Qed.

End PillowFacts.

(* ================================================================= *)
(** ** Row count policy *)

(** C5.  For every image and every label width, [determine_tile_rows]
    returns 2: the result depends neither on the size or mode of the
    image nor on the label width. *)
Theorem determine_tile_rows_fixed :
  forall (image : Image) (label_width : Z),
    determine_tile_rows image label_width = 2.
Proof.
  intros image label_width. reflexivity.
Qed.

(* ================================================================= *)
(** ** Levels *)

Section Levels.
Context {backend : Backend}.

(** With equal black and white points no index reaches the division:
    every [i] is either [<= black_point] or [>= white_point]. *)
Lemma levels_entry_equal_points (p i : Z) :
  levels_entry p p i = Ok (if i <=? p then 0 else 255).
Proof.
  unfold levels_entry. destruct (i <=? p) eqn:E; [reflexivity |].
  apply Z.leb_gt in E.
  replace (i >=? p) with true by (symmetry; apply Z.geb_le; lia).
  reflexivity.
Qed.

Lemma levels_lut_equal_points (p : Z) :
  levels_lut p p = Ok (map (fun i => if i <=? p then 0 else 255) (range 256)).
Proof.
  unfold levels_lut. apply mapM_total.
  intros i _. apply levels_entry_equal_points.
Qed.

(** The table for the full range is the identity table; each of its
    254 inner entries is [int(i / 255 * 255)] in binary64. *)
Lemma levels_lut_full_range : levels_lut 0 255 = Ok (range 256).
Proof. vm_compute. reflexivity. Qed.

(** C1 (as the code has it).  With [black_point] equal to
    [white_point], [apply_levels] raises nothing: it returns an ["L"]
    image of the size of its input in which a sample is 0 where the
    grayscale input is at most the common point and 255 elsewhere. *)
Theorem apply_levels_equal_points_returns :
  forall (image : Image) (p : Z),
  exists out,
    apply_levels image p p = Ok out /\
    mode out = ML /\ width out = width image /\ height out = height image /\
    forall x y, 0 <= luma image x y <= 255 ->
      px out x y 0%nat = if luma image x y <=? p then 0 else 255.
Proof.
  intros image p. unfold apply_levels.
  rewrite levels_lut_equal_points. cbn [bind].
  rewrite point_Ok.
  - eexists. split; [reflexivity |]. cbn [mode width height px].
    split; [apply to_grayscale_mode |].
    split; [apply to_grayscale_size |].
    split; [apply to_grayscale_size |].
    intros x y Hv. rewrite to_grayscale_luma.
    rewrite (nth_range (fun i => if i <=? p then 0 else 255)) by lia.
    destruct (luma image x y <=? p); reflexivity.
  - apply to_grayscale_mode.
  - rewrite length_map. apply range_length. lia.
Qed.

(** C6.  On an 8-bit grayscale image, [apply_levels] with
    [black_point = 0] and [white_point = 255] returns an image equal to
    its input: same mode, same size, and every sample unchanged. *)
Theorem apply_levels_full_range_identity :
  forall (image : Image),
    mode image = ML -> samples_valid image ->
    exists out, apply_levels image 0 255 = Ok out /\ same_image out image.
Proof.
  intros image Hmode Hvalid. unfold apply_levels.
  rewrite levels_lut_full_range. cbn [bind].
  rewrite (to_grayscale_gray image Hmode).
  rewrite point_Ok by (assumption || reflexivity).
  eexists. split; [reflexivity |].
  unfold same_image; cbn [mode width height px].
  repeat split.
  intros x y k Hx Hy Hk. rewrite Hmode in Hk. simpl in Hk.
  assert (k = 0%nat) as -> by lia.
  assert (Hv : 0 <= px image x y 0%nat <= 255).
  { apply Hvalid; [assumption | assumption | rewrite Hmode; simpl; lia]. }
  rewrite nth_range_id by lia. unfold clip8. lia.
Qed.

End Levels.

Lemma gradient_valid : mode gradient = ML /\ samples_valid gradient.
Proof.
  split; [reflexivity |].
  intros x y b _ _ _. simpl.
  pose proof (Z.mod_pos_bound (x + y) 256). lia.
Qed.

Lemma apply_levels_full_range_identity_witness :
  mode gradient = ML /\ samples_valid gradient /\
  exists out, apply_levels gradient 0 255 = Ok out /\ same_image out gradient.
Proof.
  split; [reflexivity |].
  split; [exact (proj2 gradient_valid) |].
  apply (apply_levels_full_range_identity gradient).
  - reflexivity.
  - intros x y b _ _ _. simpl.
    pose proof (Z.mod_pos_bound (x + y) 256). lia.
Defined.

(** C1, at a concrete input: on the gradient image, equal black and
    white points of 128 give a result, not an exception. *)
Lemma apply_levels_equal_points_no_error :
  returns (apply_levels gradient 128 128) = true /\
  forall e, apply_levels gradient 128 128 <> Raise e.
Proof.
  split.
  - vm_compute. reflexivity.
  - intros e H.
    assert (R : returns (apply_levels gradient 128 128) = true)
      by (vm_compute; reflexivity).
    rewrite H in R. discriminate R.
Qed.

(* ================================================================= *)
(** ** Threshold *)

Section Threshold.
Context {backend : Backend}.

Lemma threshold_lut_length (t : Z) : Z.of_nat (length (threshold_lut t)) = 256.
Proof.
  unfold threshold_lut. rewrite length_map. apply range_length. lia.
Qed.

(** Whatever the index, an entry of the table is 0, or it is 255 and
    then the cutoff is below 255. *)
Lemma threshold_lut_entry (t : Z) (k : nat) :
  let v := clip8 (nth k (threshold_lut t) 0) in
  v = 0 \/ (v = 255 /\ t < 255).
Proof.
  cbv zeta. destruct (nth_in_or_default k (threshold_lut t) 0) as [Hin | Hd].
  - unfold threshold_lut in Hin. apply in_map_iff in Hin.
    destruct Hin as (i & Hi & Hr). apply In_range in Hr.
    fold (threshold_lut t) in Hi. rewrite <- Hi.
    destruct (i >? t) eqn:E.
    + right. split; [reflexivity |]. apply Z.gtb_lt in E. lia.
    + left. reflexivity.
  - rewrite Hd. left. reflexivity.
Qed.

Lemma threshold_lut_at (t i : Z) :
  0 <= i < 256 ->
  nth (Z.to_nat i) (threshold_lut t) 0 = if i >? t then 255 else 0.
Proof.
  intros Hi. unfold threshold_lut.
  apply (nth_range (fun i => if i >? t then 255 else 0)). exact Hi.
Qed.

(** What [apply_threshold] returns, sample by sample. *)
Lemma apply_threshold_Ok (image : Image) (t : Z) :
  exists out,
    apply_threshold image t = Ok out /\
    mode out = M1 /\ width out = width image /\ height out = height image /\
    forall x y b,
      px out x y b = clip8 (nth (Z.to_nat (luma image x y)) (threshold_lut t) 0).
Proof.
  unfold apply_threshold.
  rewrite point_Ok by (apply to_grayscale_mode || apply threshold_lut_length).
  eexists. split; [reflexivity |]. cbn [mode width height px].
  split; [reflexivity |].
  split; [apply to_grayscale_size |].
  split; [apply to_grayscale_size |].
  intros x y b. rewrite to_grayscale_luma. reflexivity.
Qed.

(** C7.  For every image and every cutoff [t] in 0..255, thresholding
    the result of [apply_threshold] again at [t] gives the same 1-bit
    image: same mode, same size, same samples. *)
Theorem apply_threshold_idempotent :
  forall (image : Image) (t : Z),
    0 <= t <= 255 ->
    exists once twice,
      apply_threshold image t = Ok once /\
      apply_threshold once t = Ok twice /\
      mode once = M1 /\
      same_image twice once.
Proof.
  intros image t Ht.
  destruct (apply_threshold_Ok image t) as (once & H1 & Hm1 & Hw1 & Hh1 & Hp1).
  destruct (apply_threshold_Ok once t) as (twice & H2 & Hm2 & Hw2 & Hh2 & Hp2).
  exists once, twice. split; [exact H1 |]. split; [exact H2 |].
  split; [exact Hm1 |].
  unfold same_image. rewrite Hm2, Hm1, Hw2, Hh2.
  repeat split.
  intros x y k _ _ _. rewrite Hp2.
  unfold luma. rewrite Hm1. rewrite (Hp1 x y k), (Hp1 x y 0%nat).
  destruct (threshold_lut_entry t (Z.to_nat (luma image x y))) as [E | [E Hlt]];
    rewrite E; simpl (_ =? _); cbv iota.
  - rewrite threshold_lut_at by lia.
    replace (0 >? t) with false by (symmetry; rewrite Z.gtb_ltb; apply Z.ltb_ge; lia).
    reflexivity.
  - rewrite threshold_lut_at by lia.
    replace (255 >? t) with true by (symmetry; rewrite Z.gtb_ltb; apply Z.ltb_lt; lia).
    reflexivity.
Qed.

End Threshold.

Lemma apply_threshold_idempotent_witness :
  0 <= 128 <= 255 /\
  exists once twice,
    apply_threshold poster 128 = Ok once /\
    apply_threshold once 128 = Ok twice /\
    mode once = M1 /\
    same_image twice once.
Proof.
  split; [lia |].
  apply (apply_threshold_idempotent poster 128). lia.
Defined.

(* ================================================================= *)
(** ** [int] and [round] on floats *)

Lemma magnitude_nonneg (m : positive) (e : Z) : 0 <= magnitude m e.
Proof.
  unfold magnitude. destruct e as [| p | p].
  - lia.
  - pose proof (Z.pow_pos_nonneg 2 (Z.pos p)). lia.
  - apply Z.div_pos; [lia |]. apply Z.pow_pos_nonneg; lia.
Qed.

Ltac q_to_z :=
  unfold float_value; unfold Qle, Qlt, Qmult, inject_Z; cbn [Qnum Qden];
  rewrite ?Pos2Z.inj_mul, ?Pos2Z.inj_pow, ?Z.pow_0_r.

(** [int(x)] is [x] cut toward zero: between [x] and zero, less than
    one away from [x]. *)
Lemma int_of_float_truncates (x : float) (n : Z) :
  int_of_float x = Ok n ->
  is_finite x = true /\
  ((0 <= float_value x)%Q ->
     (inject_Z n <= float_value x)%Q /\ (float_value x < inject_Z (n + 1))%Q) /\
  ((float_value x <= 0)%Q ->
     (inject_Z (n - 1) < float_value x)%Q /\ (float_value x <= inject_Z n)%Q).
Proof.
  destruct x as [s | s | | s m e]; intros H; simpl in H; try discriminate H;
    injection H as <-; (split; [reflexivity |]).
  - q_to_z. lia.
  - destruct e as [| p | p]; unfold magnitude, signed.
    + destruct s; q_to_z; lia.
    + pose proof (Z.pow_pos_nonneg 2 (Z.pos p)).
      destruct s; q_to_z; nia.
    + assert (Hpos : 0 < 2 ^ Z.pos p) by (apply Z.pow_pos_nonneg; lia).
      pose proof (Z.div_mod (Z.pos m) (2 ^ Z.pos p)) as Hdm.
      pose proof (Z.mod_pos_bound (Z.pos m) (2 ^ Z.pos p) Hpos) as Hmod.
      destruct s; q_to_z; nia.
Qed.

Lemma int_of_float_finite (x : float) :
  is_finite x = true -> exists n, int_of_float x = Ok n.
Proof.
  destruct x; simpl; intros H; try discriminate H; eexists; reflexivity.
Qed.

(** [round(x)] is an integer within one half of [x]. *)
Lemma round_nearest (x : float) (r : Z) :
  round x = Ok r ->
  (inject_Z (2 * r - 1) <= 2 * float_value x)%Q /\
  (2 * float_value x <= inject_Z (2 * r + 1))%Q.
Proof.
  destruct x as [s | s | | s m e]; intros H; simpl in H; try discriminate H;
    injection H as <-.
  - q_to_z. lia.
  - destruct e as [| p | p]; unfold fraction_vs_half, magnitude, signed.
    + destruct s; q_to_z; lia.
    + pose proof (Z.pow_pos_nonneg 2 (Z.pos p)).
      destruct s; q_to_z; nia.
    + assert (Hpos : 0 < 2 ^ Z.pos p) by (apply Z.pow_pos_nonneg; lia).
      pose proof (Z.div_mod (Z.pos m) (2 ^ Z.pos p)) as Hdm.
      pose proof (Z.mod_pos_bound (Z.pos m) (2 ^ Z.pos p) Hpos) as Hmod.
      destruct (2 * (Z.pos m mod 2 ^ Z.pos p) ?= 2 ^ Z.pos p) eqn:C;
        [apply Z.compare_eq in C | rewrite Z.compare_lt_iff in C
         | rewrite Z.compare_gt_iff in C];
        try destruct (Z.odd (Z.pos m / 2 ^ Z.pos p));
        destruct s; q_to_z; nia.
Qed.

(** [int] and [round] of one float are at most one apart, and [round]
    returns whenever [int] does. *)
Lemma int_round_within_one (x : float) (n : Z) :
  int_of_float x = Ok n -> exists r, round x = Ok r /\ Z.abs (n - r) <= 1.
Proof.
  destruct x as [s | s | | s m e]; simpl; intros H; try discriminate H;
    injection H as <-.
  - exists 0. split; [reflexivity | lia].
  - eexists. split; [reflexivity |].
    destruct (fraction_vs_half m e); try destruct (Z.odd (magnitude m e));
      destruct s; unfold signed; lia.
Qed.

(** Multiplication of floats is commutative. *)
Lemma float_mul_comm (x y : float) : float_mul x y = float_mul y x.
Proof.
  unfold float_mul.
  destruct x as [sx | sx | | sx mx ex], y as [sy | sy | | sy my ey]; simpl;
    try reflexivity; try (rewrite (xorb_comm sx sy); reflexivity).
  rewrite (xorb_comm sx sy), (Pos.mul_comm mx my), (Z.add_comm ex ey).
  reflexivity.
Qed.

(** The literal [25.4] is the quotient 254/10 rounded to binary64. *)
Lemma lit_25_4_correct : int_truediv 254 10 = Ok lit_25_4.
Proof. vm_compute. reflexivity. Qed.

(* ================================================================= *)
(** ** binary64 arithmetic stays in range

    Rounding to binary64 overflows only beyond [2^1024].  The lemmas
    below follow the rounding function of [SpecFloat] step by step and
    bound mantissa and exponent of what it returns; they give that the
    divisions, conversions and products of the pipeline are finite for
    every size Pillow can hold (a C [int], below [2^31]). *)

(** *** Sizes of mantissas *)

Lemma digits2_pos_bounds (p : positive) :
  2 ^ (Z.pos (digits2_pos p) - 1) <= Z.pos p < 2 ^ Z.pos (digits2_pos p).
Proof.
  induction p as [p IH | p IH |]; cbn [digits2_pos].
  - rewrite Pos2Z.inj_succ, (Pos2Z.inj_xI p).
    replace (Z.succ (Z.pos (digits2_pos p)) - 1)
      with (Z.succ (Z.pos (digits2_pos p) - 1)) by lia.
    rewrite !Z.pow_succ_r by lia.
    destruct IH as [Hlo Hhi]. revert Hlo Hhi.
    generalize (2 ^ (Z.pos (digits2_pos p) - 1)) (2 ^ Z.pos (digits2_pos p)).
    intros; lia.
  - rewrite Pos2Z.inj_succ, (Pos2Z.inj_xO p).
    replace (Z.succ (Z.pos (digits2_pos p)) - 1)
      with (Z.succ (Z.pos (digits2_pos p) - 1)) by lia.
    rewrite !Z.pow_succ_r by lia.
    destruct IH as [Hlo Hhi]. revert Hlo Hhi.
    generalize (2 ^ (Z.pos (digits2_pos p) - 1)) (2 ^ Z.pos (digits2_pos p)).
    intros; lia.
  - simpl. lia.
Qed.

Lemma Zdigits2_nonneg (x : Z) : 0 <= Zdigits2 x.
Proof. destruct x; simpl; lia. Qed.

Lemma Zdigits2_gt (x : Z) : 0 <= x -> x < 2 ^ Zdigits2 x.
Proof.
  destruct x as [| p | p]; intros H; try lia.
  - simpl. lia.
  - apply digits2_pos_bounds.
Qed.

Lemma Zdigits2_le (x k : Z) : 0 <= k -> 0 <= x < 2 ^ k -> Zdigits2 x <= k.
Proof.
  intros Hk [H0 Hx]. destruct x as [| p | p]; try lia.
  - simpl. exact Hk.
  - cbn [Zdigits2]. pose proof (digits2_pos_bounds p) as [Hlo _].
    destruct (Z_le_gt_dec (Z.pos (digits2_pos p)) k) as [Hle | Hgt];
      [exact Hle | exfalso].
    assert (2 ^ k <= 2 ^ (Z.pos (digits2_pos p) - 1))
      by (apply Z.pow_le_mono_r; lia).
    lia.
Qed.

Lemma Zdigits2_div_pow (x n : Z) :
  0 <= x -> 0 <= n ->
  Zdigits2 (x / 2 ^ n) + n <= Z.max (Zdigits2 x) n.
Proof.
  intros Hx Hn.
  assert (Hp : 0 < 2 ^ n) by (apply Z.pow_pos_nonneg; lia).
  destruct (Z_le_gt_dec n (Zdigits2 x)) as [Hle | Hgt].
  - enough (Zdigits2 (x / 2 ^ n) <= Zdigits2 x - n) by lia.
    apply Zdigits2_le; [lia |]. split; [apply Z.div_pos; lia |].
    apply Z.div_lt_upper_bound; [lia |].
    rewrite <- Z.pow_add_r by lia.
    replace (n + (Zdigits2 x - n)) with (Zdigits2 x) by lia.
    apply Zdigits2_gt. exact Hx.
  - rewrite Z.div_small; [simpl; lia |].
    split; [exact Hx |].
    apply Z.lt_le_trans with (2 ^ Zdigits2 x); [apply Zdigits2_gt; exact Hx |].
    apply Z.pow_le_mono_r; [lia |]. pose proof (Zdigits2_nonneg x). lia.
Qed.

Lemma Zdigits2_succ (x : Z) : 0 <= x -> Zdigits2 (x + 1) <= Zdigits2 x + 1.
Proof.
  intros Hx. pose proof (Zdigits2_nonneg x). pose proof (Zdigits2_gt x Hx).
  apply Zdigits2_le; [lia |].
  rewrite Z.pow_add_r by lia. lia.
Qed.

Lemma Zdigits2_mul (x y : Z) :
  0 <= x -> 0 <= y -> Zdigits2 (x * y) <= Zdigits2 x + Zdigits2 y.
Proof.
  intros Hx Hy.
  pose proof (Zdigits2_nonneg x). pose proof (Zdigits2_nonneg y).
  pose proof (Zdigits2_gt x Hx). pose proof (Zdigits2_gt y Hy).
  apply Zdigits2_le; [lia |].
  rewrite Z.pow_add_r by lia. nia.
Qed.

Lemma Zdigits2_mono (x y : Z) : 0 <= x <= y -> Zdigits2 x <= Zdigits2 y.
Proof.
  intros [Hx Hxy]. apply Zdigits2_le; [apply Zdigits2_nonneg |].
  pose proof (Zdigits2_gt y). lia.
Qed.

(** *** Shifting right *)

Lemma shr_1_m (r : shr_record) :
  0 <= shr_m r -> shr_m (shr_1 r) = shr_m r / 2.
Proof.
  destruct r as [m r s]. cbn [shr_m]. intros Hm.
  destruct m as [| p | p]; [reflexivity | | lia].
  destruct p as [p | p |]; cbn [shr_1 shr_m].
  - rewrite (Pos2Z.inj_xI p). apply Z.div_unique with 1; lia.
  - rewrite (Pos2Z.inj_xO p). apply Z.div_unique with 0; lia.
  - reflexivity.
Qed.

Lemma iter_pos_shr_1_m (p : positive) :
  forall r, 0 <= shr_m r ->
    shr_m (SpecFloat.iter_pos shr_1 p r) = shr_m r / 2 ^ Z.pos p.
Proof.
  induction p as [p IH | p IH |]; intros r Hr; cbn [SpecFloat.iter_pos].
  - assert (H1 : 0 <= shr_m (shr_1 r))
      by (rewrite shr_1_m by exact Hr; apply Z.div_pos; lia).
    assert (Hp : 0 < 2 ^ Z.pos p) by (apply Z.pow_pos_nonneg; lia).
    assert (H2 : 0 <= shr_m (SpecFloat.iter_pos shr_1 p (shr_1 r)))
      by (rewrite IH by exact H1; apply Z.div_pos; lia).
    rewrite IH by exact H2. rewrite IH by exact H1. rewrite shr_1_m by exact Hr.
    rewrite !Z.div_div by lia. f_equal.
    rewrite (Pos2Z.inj_xI p), Z.pow_add_r, Z.pow_mul_r by lia.
    change (2 ^ 2) with 4. change (2 ^ 1) with 2.
    replace (4 ^ Z.pos p) with (2 ^ Z.pos p * 2 ^ Z.pos p); [lia |].
    rewrite <- Z.pow_mul_l. reflexivity.
  - assert (Hp : 0 < 2 ^ Z.pos p) by (apply Z.pow_pos_nonneg; lia).
    assert (H2 : 0 <= shr_m (SpecFloat.iter_pos shr_1 p r))
      by (rewrite IH by exact Hr; apply Z.div_pos; lia).
    rewrite IH by exact H2. rewrite IH by exact Hr.
    rewrite !Z.div_div by lia. f_equal.
    rewrite (Pos2Z.inj_xO p), Z.pow_mul_r by lia.
    change (2 ^ 2) with 4.
    rewrite <- Z.pow_mul_l. reflexivity.
  - rewrite shr_1_m by exact Hr. reflexivity.
Qed.

Lemma shr_record_of_loc_m (m : Z) (l : location) :
  shr_m (shr_record_of_loc m l) = m.
Proof. destruct l as [| []]; reflexivity. Qed.

(** After [shr_fexp] the mantissa is still non-negative, the exponent
    is the larger of the old one and the one the format asks for, and
    mantissa and exponent together have not grown. *)
Lemma shr_fexp_bounds (m e : Z) (l : location) :
  0 <= m ->
  let '(r, e') := shr_fexp prec emax m e l in
  0 <= shr_m r /\
  e' = Z.max e (fexp prec emax (Zdigits2 m + e)) /\
  Zdigits2 (shr_m r) + e' <= Z.max (Zdigits2 m + e) e'.
Proof.
  intros Hm. unfold shr_fexp, shr.
  destruct (fexp prec emax (Zdigits2 m + e) - e) as [| n | n] eqn:En.
  - rewrite shr_record_of_loc_m. repeat split; lia.
  - rewrite iter_pos_shr_1_m by (rewrite shr_record_of_loc_m; exact Hm).
    rewrite shr_record_of_loc_m.
    assert (Hp : 0 < 2 ^ Z.pos n) by (apply Z.pow_pos_nonneg; lia).
    split; [apply Z.div_pos; lia |]. split; [lia |].
    pose proof (Zdigits2_div_pow m (Z.pos n) Hm). lia.
  - rewrite shr_record_of_loc_m. repeat split; lia.
Qed.

Lemma round_nearest_even_bounds (m : Z) (l : location) :
  m <= round_nearest_even m l <= m + 1.
Proof.
  destruct l as [| []]; cbn [round_nearest_even]; try lia.
  destruct (Z.even m); lia.
Qed.

(** *** Results that stay in range *)

Lemma within_finite (B E : Z) (x : float) : within B E x -> is_finite x = true.
Proof. destruct x; simpl; intros H; try contradiction; reflexivity. Qed.

Lemma within_weaken (B E B' E' : Z) (x : float) :
  B <= B' -> E <= E' -> within B E x -> within B' E' x.
Proof. destruct x; simpl; intros; try assumption; lia. Qed.

Lemma fexp_le (e : Z) : fexp prec emax e = Z.max (e - 53) (-1074).
Proof. reflexivity. Qed.

Lemma binary_round_aux_within (s : bool) (m e : Z) (l : location) (B E : Z) :
  0 <= m -> Zdigits2 m + e <= B -> e <= E ->
  -1074 <= B -> -1074 <= E -> B - 52 <= E -> E <= 971 ->
  within (B + 1) E (binary_round_aux prec emax s m e l).
Proof.
  intros Hm HB HE HB0 HE0 HBE HE1. unfold binary_round_aux.
  pose proof (shr_fexp_bounds m e l Hm) as H1.
  destruct (shr_fexp prec emax m e l) as [r1 e1].
  destruct H1 as (Hr1 & He1 & Hd1).
  pose proof (round_nearest_even_bounds (shr_m r1) (loc_of_shr_record r1)) as Hr.
  set (m2 := round_nearest_even (shr_m r1) (loc_of_shr_record r1)) in *.
  assert (Hm2 : 0 <= m2) by lia.
  pose proof (shr_fexp_bounds m2 e1 loc_Exact Hm2) as H2.
  destruct (shr_fexp prec emax m2 e1 loc_Exact) as [r3 e3].
  destruct H2 as (Hr3 & He3 & Hd3).
  rewrite fexp_le in He1, He3.
  pose proof (Zdigits2_nonneg m).
  assert (Hd2 : Zdigits2 m2 <= Zdigits2 (shr_m r1) + 1).
  { apply Z.le_trans with (Zdigits2 (shr_m r1 + 1)).
    - apply Zdigits2_mono. lia.
    - apply Zdigits2_succ. exact Hr1. }
  destruct (shr_m r3) as [| m3 | m3] eqn:Em3; try lia.
  - exact I.
  - replace (e3 <=? emax - prec) with true
      by (symmetry; apply Z.leb_le; unfold emax, prec; lia).
    cbn [within]. lia.
Qed.

Lemma float_mul_within (Bx Ex By Ey E : Z) (x y : float) :
  within Bx Ex x -> within By Ey y ->
  Ex + Ey <= E -> Bx + By - 52 <= E ->
  -1074 <= Bx + By -> -1074 <= E -> E <= 971 ->
  within (Bx + By + 1) E (float_mul x y).
Proof.
  intros Hx Hy HE HBE HB0 HE0 HE1. unfold float_mul.
  destruct x as [sx | sx | | sx mx ex], y as [sy | sy | | sy my ey];
    cbn [within SFmul] in *; try contradiction; try exact I.
  apply binary_round_aux_within; try lia.
  rewrite Pos2Z.inj_mul.
  pose proof (Zdigits2_mul (Z.pos mx) (Z.pos my)). lia.
Qed.

(** The quotient of two integers, before rounding. *)
Lemma SFdiv_core_binary_bounds (mx my : positive) :
  let '(q, e, l) := SFdiv_core_binary prec emax (Z.pos mx) 0 (Z.pos my) 0 in
  0 <= q /\ e <= 0 /\ Zdigits2 q + e <= Zdigits2 (Z.pos mx).
Proof.
  unfold SFdiv_core_binary.
  set (d1 := Zdigits2 (Z.pos mx)). set (d2 := Zdigits2 (Z.pos my)).
  set (e := Z.min (fexp prec emax (d1 + 0 - (d2 + 0))) (0 - 0)).
  assert (He : e <= 0) by (unfold e; lia).
  set (m' := match 0 - 0 - e with
             | 0 => Z.pos mx
             | Z.pos _ => Z.shiftl (Z.pos mx) (0 - 0 - e)
             | Z.neg _ => 0
             end).
  assert (Hm' : m' = Z.pos mx * 2 ^ (- e)).
  { unfold m'. destruct (0 - 0 - e) as [| s | s] eqn:Es; try lia.
    - replace (- e) with 0 by lia. lia.
    - rewrite Z.shiftl_mul_pow2 by lia. f_equal. f_equal. lia. }
  pose proof (Z.div_eucl_eq m' (Z.pos my)) as Heq.
  pose proof (Z.mod_pos_bound m' (Z.pos my)) as Hmod.
  unfold Z.modulo in Hmod.
  destruct (Z.div_eucl m' (Z.pos my)) as [q r].
  assert (Hp : 0 < 2 ^ (- e)) by (apply Z.pow_pos_nonneg; lia).
  assert (Hq : 0 <= q <= m') by nia.
  split; [lia |]. split; [exact He |].
  enough (Zdigits2 q <= d1 - e) by lia.
  pose proof (Zdigits2_nonneg (Z.pos mx)).
  apply Zdigits2_le; [unfold d1; lia |].
  split; [lia |].
  apply Z.le_lt_trans with m'; [lia |].
  rewrite Hm'. unfold Z.sub. rewrite Z.pow_add_r by (unfold d1; lia).
  pose proof (Zdigits2_gt (Z.pos mx)). unfold d1. nia.
Qed.

(** Dividing an integer below [2^31] in absolute value by a non-zero
    integer gives a float, of size at most that of the numerator. *)
Lemma int_truediv_within (a b : Z) :
  Z.abs a < 2 ^ 31 -> b <> 0 ->
  exists q, int_truediv a b = Ok q /\ within 32 0 q.
Proof.
  intros Ha Hb. unfold int_truediv.
  replace (b =? 0) with false by (symmetry; apply Z.eqb_neq; exact Hb).
  assert (H : within 32 0 (SFdiv prec emax (exact_int a) (exact_int b))).
  { destruct a as [| pa | pa], b as [| pb | pb]; try lia;
      cbn [exact_int SFdiv within]; try exact I;
      pose proof (SFdiv_core_binary_bounds pa pb) as Hc;
      destruct (SFdiv_core_binary prec emax (Z.pos pa) 0 (Z.pos pb) 0)
        as [[q e] l];
      destruct Hc as (Hq & He & Hd);
      assert (Hda : Zdigits2 (Z.pos pa) <= 31)
        by (apply Zdigits2_le; lia);
      apply (binary_round_aux_within _ q e l 31 0); lia. }
  rewrite (within_finite _ _ _ H). eexists. split; [reflexivity | exact H].
Qed.

Lemma digits2_pos_iter_xO (p d : positive) :
  Z.pos (digits2_pos (Pos.iter xO p d)) = Z.pos (digits2_pos p) + Z.pos d.
Proof.
  induction d as [| d IH] using Pos.peano_ind.
  - cbn [Pos.iter digits2_pos]. lia.
  - rewrite Pos.iter_succ. cbn [digits2_pos]. lia.
Qed.

Lemma shl_align_bounds (mx : positive) (ex ex' : Z) :
  let '(mz, ez) := shl_align mx ex ex' in
  Zdigits2 (Z.pos mz) + ez = Zdigits2 (Z.pos mx) + ex /\ ez <= ex.
Proof.
  unfold shl_align. destruct (ex' - ex) as [| d | d] eqn:E.
  - split; lia.
  - split; lia.
  - cbn [Zdigits2]. rewrite digits2_pos_iter_xO. split; lia.
Qed.

(** Converting an integer below [2^31] in absolute value gives a
    float of the same size. *)
Lemma float_of_int_within (z : Z) :
  Z.abs z < 2 ^ 31 ->
  exists x, float_of_int z = Ok x /\ within 32 0 x.
Proof.
  intros Hz. unfold float_of_int.
  assert (H : within 32 0 (binary_normalize prec emax z 0 false)).
  { destruct z as [| p | p]; cbn [binary_normalize within]; try exact I;
      unfold binary_round;
      pose proof (shl_align_bounds p 0
                    (fexp prec emax (Z.pos (digits2_pos p) + 0))) as Hs;
      destruct (shl_align p 0 (fexp prec emax (Z.pos (digits2_pos p) + 0)))
        as [mz ez];
      destruct Hs as (Hd & He);
      assert (Hdp : Zdigits2 (Z.pos p) <= 31) by (apply Zdigits2_le; lia);
      apply (binary_round_aux_within _ (Z.pos mz) ez loc_Exact 31 0); lia. }
  rewrite (within_finite _ _ _ H). eexists. split; [reflexivity | exact H].
Qed.

(** The height computation of the resizing steps returns for every
    size Pillow can hold. *)
Lemma scaled_height_returns (t w h : Z) :
  Z.abs t < 2 ^ 31 -> w <> 0 -> Z.abs h < 2 ^ 31 ->
  exists n, scaled_height t w h = Ok n /\ resized_height t w h = Ok n.
Proof.
  intros Ht Hw Hh. unfold scaled_height, resized_height.
  destruct (int_truediv_within t w Ht Hw) as (q & -> & Hq). cbn [bind].
  unfold mul_float_num, mul_num_float, to_float.
  destruct (float_of_int_within h Hh) as (fh & -> & Hfh). cbn [bind].
  rewrite (float_mul_comm fh q).
  assert (H : within 65 12 (float_mul q fh))
    by (apply (float_mul_within 32 0 32 0 12); (assumption || lia)).
  destruct (int_of_float_finite _ (within_finite _ _ _ H)) as (n & Hn).
  exists n. split; exact Hn.
Qed.

(** The quotient of two floats, before rounding. *)
Lemma SFdiv_core_binary_range (mx my : positive) (ex ey : Z) :
  let '(q, e, l) := SFdiv_core_binary prec emax (Z.pos mx) ex (Z.pos my) ey in
  0 <= q /\ e <= ex - ey /\
  Zdigits2 q + e <= Zdigits2 (Z.pos mx) + ex - ey.
Proof.
  unfold SFdiv_core_binary.
  set (d1 := Zdigits2 (Z.pos mx)). set (d2 := Zdigits2 (Z.pos my)).
  set (e := Z.min (fexp prec emax (d1 + ex - (d2 + ey))) (ex - ey)).
  assert (He : e <= ex - ey) by (unfold e; lia).
  set (m' := match ex - ey - e with
             | 0 => Z.pos mx
             | Z.pos _ => Z.shiftl (Z.pos mx) (ex - ey - e)
             | Z.neg _ => 0
             end).
  assert (Hm' : m' = Z.pos mx * 2 ^ (ex - ey - e)).
  { unfold m'. destruct (ex - ey - e) as [| s | s] eqn:Es; try lia.
    rewrite Z.shiftl_mul_pow2 by lia. reflexivity. }
  pose proof (Z.div_eucl_eq m' (Z.pos my)) as Heq.
  pose proof (Z.mod_pos_bound m' (Z.pos my)) as Hmod.
  unfold Z.modulo in Hmod.
  destruct (Z.div_eucl m' (Z.pos my)) as [q r].
  assert (Hp : 0 < 2 ^ (ex - ey - e)) by (apply Z.pow_pos_nonneg; lia).
  assert (Hq : 0 <= q <= m') by nia.
  split; [lia |]. split; [exact He |].
  enough (Zdigits2 q <= d1 + (ex - ey - e)) by lia.
  pose proof (Zdigits2_nonneg (Z.pos mx)).
  apply Zdigits2_le; [unfold d1; lia |].
  split; [lia |].
  apply Z.le_lt_trans with m'; [lia |].
  rewrite Hm'. rewrite Z.pow_add_r by (unfold d1; lia).
  pose proof (Zdigits2_gt (Z.pos mx)). unfold d1. nia.
Qed.

(** Dividing a float of moderate size by the literal [25.4]. *)
Lemma float_truediv_lit_25_4_within (x : float) :
  within 32 0 x ->
  exists q, float_truediv x lit_25_4 = Ok q /\ within 81 48 q.
Proof.
  intros Hx. unfold float_truediv, lit_25_4. cbn [is_zero].
  eexists. split; [reflexivity |].
  destruct x as [s | s | | s m e]; cbn [within SFdiv] in *;
    try contradiction; try exact I.
  pose proof (SFdiv_core_binary_range m 7149464408450662 e (-48)) as Hc.
  destruct (SFdiv_core_binary prec emax (Z.pos m) e
              (Z.pos 7149464408450662) (-48)) as [[q e'] l].
  destruct Hc as (Hq & He & Hd).
  apply within_weaken with (B := 80 + 1) (E := 48); try lia.
  apply binary_round_aux_within; lia.
Qed.

(** The width in pixels is computed for every whole number of
    millimetres and every whole DPI below [2^31]. *)
Lemma target_width_px_returns (mm dpi : Z) :
  Z.abs mm < 2 ^ 31 -> Z.abs dpi < 2 ^ 31 ->
  exists n, target_width_px (Int mm) (Int dpi) = Ok n.
Proof.
  intros Hmm Hdpi. unfold target_width_px, truediv, to_float.
  destruct (float_of_int_within mm Hmm) as (fmm & -> & Hf). cbn [bind].
  destruct (float_truediv_lit_25_4_within fmm Hf) as (inch & -> & Hinch).
  cbn [bind]. unfold mul_float_num, to_float.
  destruct (float_of_int_within dpi Hdpi) as (fdpi & -> & Hfd). cbn [bind].
  assert (H : within 114 61 (float_mul inch fdpi))
    by (apply (float_mul_within 81 48 32 0 61); (assumption || lia)).
  apply int_of_float_finite. exact (within_finite _ _ _ H).
Qed.

(* ================================================================= *)
(** ** binary64 arithmetic is accurate

    Each operation of the pipeline rounds its exact result to a
    nearest float.  The lemmas below follow [binary_round_aux] with the
    exact value in hand, as a fraction [N / D] and its position
    relative to the mantissa, and give the usual error bound: a
    relative error of at most [2^-53] per operation, away from
    overflow and from the subnormal range. *)

(** *** Where the exact value lies *)

Ltac compare_to_order :=
  repeat match goal with
  | H : (_ ?= _) = Lt |- _ => rewrite Z.compare_lt_iff in H
  | H : (_ ?= _) = Eq |- _ => rewrite Z.compare_eq_iff in H
  | H : (_ ?= _) = Gt |- _ => rewrite Z.compare_gt_iff in H
  | |- (_ ?= _) = Lt => rewrite Z.compare_lt_iff
  | |- (_ ?= _) = Eq => rewrite Z.compare_eq_iff
  | |- (_ ?= _) = Gt => rewrite Z.compare_gt_iff
  end.

Lemma loc_of_shr_record_of_loc (m : Z) (l : location) :
  loc_of_shr_record (shr_record_of_loc m l) = l.
Proof. destruct l as [| []]; reflexivity. Qed.

Ltac split_location H :=
  match type of H with
  | _ /\ _ => let Hne := fresh "Hne" in
              let Hc := fresh "Hc" in destruct H as [Hne Hc]
  | _ => idtac
  end.

Ltac solve_located :=
  unfold located; split; [lia |];
  first [ lia | split; [lia | compare_to_order; lia] ].

Lemma shr_1_located (r : shr_record) (N D : Z) :
  0 < D -> 0 <= shr_m r ->
  located (shr_m r) (loc_of_shr_record r) N D ->
  located (shr_m (shr_1 r)) (loc_of_shr_record (shr_1 r)) N (2 * D).
Proof.
  intros HD Hm. destruct r as [m rb sb]. cbn [shr_m] in *.
  destruct m as [| p | p]; [| | lia].
  - destruct rb, sb; cbn [shr_1 shr_m loc_of_shr_record orb];
      unfold located; intros [Hb Hl]; split_location Hl; compare_to_order;
      solve_located.
  - destruct p as [p | p |]; destruct rb, sb;
      cbn [shr_1 shr_m loc_of_shr_record orb];
      rewrite ?(Pos2Z.inj_xI p), ?(Pos2Z.inj_xO p);
      unfold located; intros [Hb Hl]; split_location Hl; compare_to_order;
      solve_located.
Qed.

Lemma iter_pos_shr_1_located (p : positive) :
  forall (r : shr_record) (N D : Z),
    0 < D -> 0 <= shr_m r ->
    located (shr_m r) (loc_of_shr_record r) N D ->
    located (shr_m (SpecFloat.iter_pos shr_1 p r))
            (loc_of_shr_record (SpecFloat.iter_pos shr_1 p r))
            N (D * 2 ^ Z.pos p).
Proof.
  assert (Hnn : forall q r, 0 <= shr_m r ->
                  0 <= shr_m (SpecFloat.iter_pos shr_1 q r)).
  { intros q r Hr. rewrite iter_pos_shr_1_m by exact Hr.
    apply Z.div_pos; [exact Hr | apply Z.pow_pos_nonneg; lia]. }
  assert (H1 : forall r, 0 <= shr_m r -> 0 <= shr_m (shr_1 r)).
  { intros r Hr. rewrite shr_1_m by exact Hr. apply Z.div_pos; lia. }
  induction p as [p IH | p IH |]; intros r N D HD Hr Hl;
    cbn [SpecFloat.iter_pos].
  - assert (Hp : 0 < 2 ^ Z.pos p) by (apply Z.pow_pos_nonneg; lia).
    replace (D * 2 ^ Z.pos p~1) with (2 * D * 2 ^ Z.pos p * 2 ^ Z.pos p).
    + apply IH; [nia | auto | apply IH; [lia | auto |]].
      apply shr_1_located; assumption.
    + rewrite (Pos2Z.inj_xI p), Z.pow_add_r, Z.pow_mul_r by lia.
      change (2 ^ 2) with 4. change (2 ^ 1) with 2.
      replace (4 ^ Z.pos p) with (2 ^ Z.pos p * 2 ^ Z.pos p); [lia |].
      rewrite <- Z.pow_mul_l. reflexivity.
  - assert (Hp : 0 < 2 ^ Z.pos p) by (apply Z.pow_pos_nonneg; lia).
    replace (D * 2 ^ Z.pos p~0) with (D * 2 ^ Z.pos p * 2 ^ Z.pos p).
    + apply IH; [nia | auto | apply IH; assumption].
    + rewrite (Pos2Z.inj_xO p), Z.pow_mul_r by lia.
      change (2 ^ 2) with 4.
      replace (4 ^ Z.pos p) with (2 ^ Z.pos p * 2 ^ Z.pos p); [lia |].
      rewrite <- Z.pow_mul_l. reflexivity.
  - change (2 ^ 1) with 2. rewrite Z.mul_comm.
    apply shr_1_located; assumption.
Qed.

(** [shr_fexp] keeps track of where [N / D] lies while it drops the
    low bits of the mantissa. *)
Lemma shr_fexp_located (m e : Z) (l : location) (N D : Z) :
  0 <= m -> 0 < D -> located m l N D ->
  let '(r, e') := shr_fexp prec emax m e l in
  e <= e' /\
  located (shr_m r) (loc_of_shr_record r) N (D * 2 ^ (e' - e)).
Proof.
  intros Hm HD Hl. unfold shr_fexp, shr.
  destruct (fexp prec emax (Zdigits2 m + e) - e) as [| n | n] eqn:En.
  - split; [lia |]. rewrite Z.sub_diag, Z.mul_1_r.
    rewrite shr_record_of_loc_m, loc_of_shr_record_of_loc. exact Hl.
  - split; [lia |]. replace (e + Z.pos n - e) with (Z.pos n) by lia.
    apply iter_pos_shr_1_located; [exact HD | |];
      rewrite shr_record_of_loc_m; [exact Hm |].
    rewrite loc_of_shr_record_of_loc. exact Hl.
  - split; [lia |]. rewrite Z.sub_diag, Z.mul_1_r.
    rewrite shr_record_of_loc_m, loc_of_shr_record_of_loc. exact Hl.
Qed.

(** Rounding to nearest picks an integer within one half of [N / D]. *)
Lemma round_nearest_even_close (m : Z) (l : location) (N D : Z) :
  0 < D -> located m l N D ->
  2 * Z.abs (round_nearest_even m l * D - N) <= D.
Proof.
  intros HD [Hb Hl]. destruct l as [| c]; cbn [round_nearest_even].
  - subst N. replace (m * D - m * D) with 0 by lia. simpl. lia.
  - destruct Hl as [Hne Hc]. destruct c; compare_to_order;
      try destruct (Z.even m); nia.
Qed.

Lemma Zdigits2_ge (x k : Z) : 0 <= k -> 2 ^ k <= x -> k < Zdigits2 x.
Proof.
  intros Hk Hx.
  assert (Hp : 0 < 2 ^ k) by (apply Z.pow_pos_nonneg; lia).
  pose proof (Zdigits2_gt x ltac:(lia)) as Hgt.
  pose proof (Zdigits2_nonneg x).
  destruct (Z_lt_ge_dec k (Zdigits2 x)) as [Hlt | Hge]; [exact Hlt | exfalso].
  assert (2 ^ Zdigits2 x <= 2 ^ k) by (apply Z.pow_le_mono_r; lia).
  lia.
Qed.

(** After the first shift the mantissa fits the precision. *)
Lemma shr_fexp_fits (m e : Z) (l : location) :
  0 <= m ->
  let '(r, e') := shr_fexp prec emax m e l in
  shr_m r < 2 ^ 53 /\ -1074 <= e'.
Proof.
  intros Hm. pose proof (shr_fexp_bounds m e l Hm) as H.
  destruct (shr_fexp prec emax m e l) as [r e'].
  destruct H as (Hr & He & Hd). rewrite fexp_le in He.
  split; [| lia].
  apply Z.lt_le_trans with (2 ^ Zdigits2 (shr_m r));
    [apply Zdigits2_gt; exact Hr |].
  apply Z.pow_le_mono_r; lia.
Qed.

(** The second shift loses nothing: it acts only when rounding carried
    into a new bit, on a power of two. *)
Lemma shr_fexp_exact (m e : Z) :
  0 <= m <= 2 ^ 53 -> -1074 <= e ->
  let '(r, e') := shr_fexp prec emax m e loc_Exact in
  e <= e' /\ shr_m r * 2 ^ (e' - e) = m.
Proof.
  intros [Hm0 Hm] He. unfold shr_fexp, shr.
  assert (Hd : Zdigits2 m <= 54).
  { apply Zdigits2_le; [lia |]. change (2 ^ 54) with (2 * 2 ^ 53). lia. }
  rewrite fexp_le.
  destruct (Z.max (Zdigits2 m + e - 53) (-1074) - e) as [| n | n] eqn:En.
  - cbn [shr_record_of_loc shr_m]. rewrite Z.sub_diag. split; lia.
  - assert (Hn : Z.pos n = 1) by lia.
    assert (Hm53 : m = 2 ^ 53).
    { destruct (Z_lt_ge_dec m (2 ^ 53)) as [Hlt | Hge]; [exfalso | lia].
      assert (Zdigits2 m <= 53) by (apply Zdigits2_le; lia). lia. }
    rewrite iter_pos_shr_1_m by (cbn [shr_record_of_loc shr_m]; lia).
    cbn [shr_record_of_loc shr_m].
    replace (e + Z.pos n - e) with (Z.pos n) by lia.
    rewrite Hn, Hm53. split; [lia | reflexivity].
  - cbn [shr_record_of_loc shr_m]. rewrite Z.sub_diag. split; lia.
Qed.

Lemma shr_fexp_m (m e : Z) (l : location) :
  0 <= m ->
  let '(r, e') := shr_fexp prec emax m e l in
  shr_m r = m / 2 ^ (e' - e).
Proof.
  intros Hm. unfold shr_fexp, shr.
  destruct (fexp prec emax (Zdigits2 m + e) - e) as [| n | n] eqn:En.
  - rewrite shr_record_of_loc_m, Z.sub_diag. symmetry. apply Z.div_1_r.
  - rewrite iter_pos_shr_1_m by (rewrite shr_record_of_loc_m; exact Hm).
    rewrite shr_record_of_loc_m. f_equal. f_equal. lia.
  - rewrite shr_record_of_loc_m, Z.sub_diag. symmetry. apply Z.div_1_r.
Qed.

(** A mantissa of at least 53 bits keeps 53 bits through the first
    shift, away from the subnormal range. *)
Lemma shr_fexp_normal (m e : Z) (l : location) :
  2 ^ 52 <= m -> -1074 <= Zdigits2 m + e - 53 ->
  let '(r, e') := shr_fexp prec emax m e l in
  2 ^ 52 <= shr_m r.
Proof.
  intros Hm Hn.
  pose proof (shr_fexp_m m e l ltac:(lia)) as Hv.
  pose proof (shr_fexp_bounds m e l ltac:(lia)) as Hb.
  destruct (shr_fexp prec emax m e l) as [r e'].
  destruct Hb as (_ & He & _). rewrite fexp_le in He. rewrite Hv.
  assert (Hd : 52 < Zdigits2 m) by (apply Zdigits2_ge; lia).
  destruct (Z.eq_dec e' e) as [-> | Hne].
  - rewrite Z.sub_diag, Z.div_1_r. exact Hm.
  - assert (Hs : e' - e = Zdigits2 m - 53) by lia.
    rewrite Hs.
    assert (Hlo : 2 ^ (Zdigits2 m - 1) <= m).
    { destruct m as [| p | p]; try lia. apply digits2_pos_bounds. }
    apply Z.div_le_lower_bound; [apply Z.pow_pos_nonneg; lia |].
    rewrite <- Z.pow_add_r by lia.
    replace (Zdigits2 m - 53 + 52) with (Zdigits2 m - 1) by lia.
    exact Hlo.
Qed.

(** What [binary_round_aux] returns when the magnitude is below the
    overflow threshold and above the subnormal range, for a mantissa
    that is exact or has at least 53 bits: a finite float
    [m3 * 2^e3] whose relative distance to [N / D * 2^e] is at most
    [2^-53]. *)
Lemma binary_round_aux_relative (s : bool) (m e : Z) (l : location) (N D : Z) :
  0 < m -> 0 < D -> located m l N D ->
  Zdigits2 m + e <= 1023 -> e <= 971 ->
  -1074 <= e -> -1074 <= Zdigits2 m + e - 53 ->
  l = loc_Exact \/ 2 ^ 52 <= m ->
  exists m3 e3,
    binary_round_aux prec emax s m e l = S754_finite s m3 e3 /\
    e <= e3 /\
    Zdigits2 (Z.pos m3) + e3 <= Zdigits2 m + e + 1 /\
    2 ^ 53 * Z.abs (Z.pos m3 * 2 ^ (e3 - e) * D - N) <= N /\
    (l = loc_Exact -> Zdigits2 m <= 53 -> Z.pos m3 * 2 ^ (e3 - e) = m).
Proof.
  intros Hm HD Hl HB HE Hemin Hnormal Hcase. unfold binary_round_aux.
  pose proof (shr_fexp_bounds m e l ltac:(lia)) as H1.
  pose proof (shr_fexp_located m e l N D ltac:(lia) HD Hl) as H1l.
  pose proof (shr_fexp_fits m e l ltac:(lia)) as H1f.
  pose proof (shr_fexp_m m e l ltac:(lia)) as H1m.
  pose proof (shr_fexp_normal m e l) as H1n.
  destruct (shr_fexp prec emax m e l) as [r1 e1].
  destruct H1 as (Hr1 & He1 & Hd1). destruct H1l as (Hee & Hloc).
  destruct H1f as (Hfit & Hemin1).
  assert (Hp : 0 < 2 ^ (e1 - e)) by (apply Z.pow_pos_nonneg; lia).
  pose proof (round_nearest_even_bounds (shr_m r1) (loc_of_shr_record r1)) as Hr.
  pose proof (round_nearest_even_close _ _ N (D * 2 ^ (e1 - e))
                ltac:(nia) Hloc) as Hclose.
  set (m2 := round_nearest_even (shr_m r1) (loc_of_shr_record r1)) in *.
  assert (Hm2 : 0 <= m2 <= 2 ^ 53) by lia.
  pose proof (shr_fexp_bounds m2 e1 loc_Exact ltac:(lia)) as H2.
  pose proof (shr_fexp_exact m2 e1 Hm2 Hemin1) as H2e.
  destruct (shr_fexp prec emax m2 e1 loc_Exact) as [r3 e3].
  destruct H2 as (Hr3 & He3 & Hd3). destruct H2e as (Hee3 & Hval).
  rewrite fexp_le in He1, He3.
  pose proof (Zdigits2_nonneg m) as Hdm.
  assert (Hd2 : Zdigits2 m2 <= Zdigits2 (shr_m r1) + 1).
  { apply Z.le_trans with (Zdigits2 (shr_m r1 + 1)).
    - apply Zdigits2_mono. lia.
    - apply Zdigits2_succ. exact Hr1. }
  assert (Hp3 : 0 < 2 ^ (e3 - e1)) by (apply Z.pow_pos_nonneg; lia).
  assert (Hpow : 2 ^ (e3 - e) = 2 ^ (e3 - e1) * 2 ^ (e1 - e)).
  { rewrite <- Z.pow_add_r by lia. f_equal. lia. }
  destruct Hloc as [Hbnd Hloc].
  (* the rounded mantissa is close to N / D and not zero *)
  assert (Hexact : l = loc_Exact -> Zdigits2 m <= 53 ->
                   m2 * 2 ^ (e1 - e) = m).
  { intros El Hd53. rewrite El in Hl.
    assert (Hee1 : e1 = e) by lia.
    rewrite Hee1, Z.sub_diag in *. cbn [located] in Hl.
    destruct Hl as [_ HN]. change (2 ^ 0) with 1 in *. nia. }
  assert (Hrel : 2 ^ 53 * Z.abs (m2 * 2 ^ (e1 - e) * D - N) <= N /\ 0 < m2).
  { destruct (Z_lt_ge_dec m (2 ^ 52)) as [Hsmall | Hbig].
    - destruct Hcase as [-> | Hbig]; [| lia].
      assert (Hd52 : Zdigits2 m <= 52) by (apply Zdigits2_le; lia).
      assert (Hee1 : e1 = e) by lia.
      rewrite Hee1, Z.sub_diag in *. cbn [located] in Hl.
      destruct Hl as [_ HN].
      change (2 ^ 0) with 1 in *. rewrite Z.div_1_r in H1m.
      assert (E2 : m2 = m) by nia. rewrite E2. split; [| lia].
      replace (m * 1 * D - N) with 0 by lia.
      change (Z.abs 0) with 0. nia.
    - specialize (H1n ltac:(lia) Hnormal).
      split; [| lia].
      replace (m2 * 2 ^ (e1 - e) * D) with (m2 * (D * 2 ^ (e1 - e))) by ring.
      assert (2 ^ 52 * (D * 2 ^ (e1 - e)) <= N) by nia.
      change (2 ^ 53) with (2 ^ 52 * 2). nia. }
  destruct Hrel as [Hrel Hm2pos].
  destruct (shr_m r3) as [| m3 | m3] eqn:Em3; try lia.
  exists m3, e3.
  replace (e3 <=? emax - prec) with true
    by (symmetry; apply Z.leb_le; unfold emax, prec; lia).
  split; [reflexivity |]. split; [lia |]. split; [lia |].
  rewrite Hpow.
  replace (Z.pos m3 * (2 ^ (e3 - e1) * 2 ^ (e1 - e)))
    with (Z.pos m3 * 2 ^ (e3 - e1) * 2 ^ (e1 - e)) by ring.
  rewrite Hval. split; [exact Hrel | exact Hexact].
Qed.

(** *** Where the quotient lies *)

Lemma new_location_located (b q r N : Z) :
  0 < b -> 0 <= r < b -> N = q * b + r ->
  located q (new_location b r) N b.
Proof.
  intros Hb Hr HN. unfold located. split; [nia |].
  replace (N - q * b) with r by lia.
  unfold new_location, new_location_even, new_location_odd.
  destruct (Z.even b) eqn:Ev; destruct (r =? 0) eqn:Er;
    try (apply Z.eqb_eq in Er; lia); apply Z.eqb_neq in Er.
  - split; [lia | reflexivity].
  - split; [lia |].
    assert (Hodd : Z.odd b = true) by (rewrite <- Z.negb_even, Ev; reflexivity).
    apply Z.odd_spec in Hodd. destruct Hodd as [k Hk].
    destruct (2 * r + 1 ?= b) eqn:C; compare_to_order; lia.
Qed.

(** The integer quotient [SFdiv] starts from, for two positive
    integers below [2^31]: at least 53 bits of [a / b], with its
    position among the multiples of [2^e]. *)
Lemma SFdiv_core_binary_located (pa pb : positive) :
  Z.pos pa < 2 ^ 31 -> Z.pos pb < 2 ^ 31 ->
  let '(q, e, l) := SFdiv_core_binary prec emax (Z.pos pa) 0 (Z.pos pb) 0 in
  -83 <= e <= -22 /\ 2 ^ 52 <= q /\ Zdigits2 q + e <= 31 /\
  located q l (Z.pos pa * 2 ^ (- e)) (Z.pos pb).
Proof.
  intros Ha Hb. unfold SFdiv_core_binary.
  set (d1 := Zdigits2 (Z.pos pa)). set (d2 := Zdigits2 (Z.pos pb)).
  assert (Hd1 : 1 <= d1 <= 31).
  { split; [unfold d1; simpl; lia | apply Zdigits2_le; lia]. }
  assert (Hd2 : 1 <= d2 <= 31).
  { split; [unfold d2; simpl; lia | apply Zdigits2_le; lia]. }
  rewrite fexp_le.
  set (e := Z.min (Z.max (d1 + 0 - (d2 + 0) - 53) (-1074)) (0 - 0)).
  assert (He : e = d1 - d2 - 53) by (unfold e; lia).
  destruct (0 - 0 - e) as [| s | s] eqn:Es; try lia.
  rewrite Z.shiftl_mul_pow2 by lia.
  assert (Hp : 0 < 2 ^ Z.pos s) by (apply Z.pow_pos_nonneg; lia).
  pose proof (Z.div_eucl_eq (Z.pos pa * 2 ^ Z.pos s) (Z.pos pb)) as Heq.
  pose proof (Z.mod_pos_bound (Z.pos pa * 2 ^ Z.pos s) (Z.pos pb)) as Hmod.
  unfold Z.modulo in Hmod.
  destruct (Z.div_eucl (Z.pos pa * 2 ^ Z.pos s) (Z.pos pb)) as [q r].
  replace (- e) with (Z.pos s) by lia.
  specialize (Heq ltac:(lia)). specialize (Hmod ltac:(lia)).
  assert (Hq : 0 <= q <= Z.pos pa * 2 ^ Z.pos s) by nia.
  assert (Hdq : Zdigits2 q <= d1 + Z.pos s).
  { apply Zdigits2_le; [lia |]. split; [lia |].
    rewrite Z.pow_add_r by lia.
    pose proof (Zdigits2_gt (Z.pos pa) ltac:(lia)) as Hgt. fold d1 in Hgt.
    nia. }
  split; [lia |]. split; [| split].
  - (* 2^52 <= q: a has d1 bits and b at most d2 *)
    pose proof (digits2_pos_bounds pa) as [Halo _].
    pose proof (digits2_pos_bounds pb) as [_ Hbhi].
    fold (Zdigits2 (Z.pos pa)) in Halo. fold d1 in Halo.
    fold (Zdigits2 (Z.pos pb)) in Hbhi. fold d2 in Hbhi.
    assert (Hs : Z.pos s = 53 + d2 - d1) by lia.
    assert (Hlow : 2 ^ 52 * 2 ^ d2 <= Z.pos pa * 2 ^ Z.pos s).
    { rewrite <- Z.pow_add_r by lia.
      replace (52 + d2) with (d1 - 1 + Z.pos s) by lia.
      rewrite Z.pow_add_r by lia. nia. }
    assert (Hq' : 2 ^ 52 * Z.pos pb <= Z.pos pb * q + r) by nia.
    destruct (Z_lt_ge_dec q (2 ^ 52)) as [Hlt | Hge]; [exfalso | lia].
    nia.
  - lia.
  - apply new_location_located; lia.
Qed.


(** *** From integers to rationals *)

Lemma float_value_scaled (m : positive) (e k : Z) :
  0 <= k -> 0 <= e + k ->
  (float_value (S754_finite false m e)
   == (Z.pos m * 2 ^ (e + k)) # Z.to_pos (2 ^ k))%Q.
Proof.
  intros Hk Hek.
  assert (Hp : 0 < 2 ^ k) by (apply Z.pow_pos_nonneg; lia).
  unfold float_value, Qeq. destruct e as [| p | p]; cbn [Qnum Qden inject_Z].
  - rewrite Z2Pos.id by lia. change (2 ^ 0) with 1.
    replace (0 + k) with k by lia. lia.
  - rewrite Z2Pos.id by lia. rewrite Z.pow_add_r by lia. lia.
  - rewrite Z2Pos.id by lia. rewrite Pos2Z.inj_pow.
    replace (2 ^ k) with (2 ^ (Z.neg p + k) * 2 ^ Z.pos p); [lia |].
    rewrite <- Z.pow_add_r by lia. f_equal. lia.
Qed.

(** From integers to rationals: a value [A / B] whose numerator is
    within [2^-53] of [a / b * B], relatively. *)
Lemma scaled_error (A B M K : Z) :
  0 < B -> 0 <= K -> 0 <= M ->
  2 ^ 53 * Z.abs (A - M) <= M ->
  (((M * K) # Z.to_pos B) * (1 - unit_roundoff)
     <= (A * K) # Z.to_pos B)%Q /\
  ((A * K) # Z.to_pos B
     <= ((M * K) # Z.to_pos B) * (1 + unit_roundoff))%Q.
Proof.
  intros HB HK HM H.
  unfold unit_roundoff, Qminus, Qle; unfold Qmult, Qplus, Qopp;
    cbn [Qnum Qden]. rewrite ?Pos2Z.inj_mul, ?Z2Pos.id by lia.
  change (2 ^ 53) with 9007199254740992 in H.
  assert (HKB : 0 <= K * B) by nia.
  assert (H1 : 9007199254740992 * (A - M) * (K * B) <= M * (K * B)) by nia.
  assert (H2 : 9007199254740992 * (M - A) * (K * B) <= M * (K * B)) by nia.
  split; lia.
Qed.

Lemma quotient_error (A B a b : Z) :
  0 < B -> 0 <= a ->
  2 ^ 53 * Z.abs (A * b - a * B) <= a * B ->
  (inject_Z a * (1 - unit_roundoff)
     <= (A # Z.to_pos B) * inject_Z b)%Q /\
  ((A # Z.to_pos B) * inject_Z b
     <= inject_Z a * (1 + unit_roundoff))%Q.
Proof.
  intros HB Ha H.
  unfold unit_roundoff, Qminus, Qle, inject_Z; unfold Qmult, Qplus, Qopp;
    cbn [Qnum Qden]. rewrite ?Pos2Z.inj_mul, ?Z2Pos.id by lia.
  change (2 ^ 53) with 9007199254740992 in H.
  split; lia.
Qed.

(** [a / b] in binary64, for sizes Pillow can hold: a positive float
    within [2^-53] of the quotient, relatively. *)
Lemma int_truediv_accurate (a b : Z) :
  0 < a < 2 ^ 31 -> 0 < b < 2 ^ 31 ->
  exists m e,
    int_truediv a b = Ok (S754_finite false m e) /\
    -83 <= e /\ Zdigits2 (Z.pos m) + e <= 32 /\
    (inject_Z a * (1 - unit_roundoff)
       <= float_value (S754_finite false m e) * inject_Z b)%Q /\
    (float_value (S754_finite false m e) * inject_Z b
       <= inject_Z a * (1 + unit_roundoff))%Q.
Proof.
  intros Ha Hb. unfold int_truediv.
  replace (b =? 0) with false by (symmetry; apply Z.eqb_neq; lia).
  destruct a as [| pa | pa]; try lia. destruct b as [| pb | pb]; try lia.
  cbn [exact_int SFdiv xorb].
  pose proof (SFdiv_core_binary_located pa pb ltac:(lia) ltac:(lia)) as Hc.
  destruct (SFdiv_core_binary prec emax (Z.pos pa) 0 (Z.pos pb) 0)
    as [[q e] l].
  destruct Hc as (He & Hq & Hdq & Hloc).
  assert (Hd53 : 52 < Zdigits2 q) by (apply Zdigits2_ge; lia).
  destruct (binary_round_aux_relative false q e l
              (Z.pos pa * 2 ^ (- e)) (Z.pos pb)
              ltac:(lia) ltac:(lia) Hloc ltac:(lia) ltac:(lia) ltac:(lia)
              ltac:(lia) (or_intror Hq))
    as (m3 & e3 & -> & Hee & Hd3 & Hrel & _).
  cbn [is_finite]. exists m3, e3. split; [reflexivity |].
  split; [lia |]. split; [lia |].
  rewrite (float_value_scaled m3 e3 (- e)) by lia.
  replace (e3 + - e) with (e3 - e) by lia.
  apply quotient_error; [apply Z.pow_pos_nonneg; lia | lia |].
  exact Hrel.
Qed.

Lemma Zpos_iter_xO (p k : positive) :
  Z.pos (Pos.iter xO p k) = Z.pos p * 2 ^ Z.pos k.
Proof.
  induction k as [| k IH] using Pos.peano_ind.
  - cbn [Pos.iter]. rewrite (Pos2Z.inj_xO p). change (2 ^ 1) with 2. lia.
  - rewrite Pos.iter_succ, (Pos2Z.inj_xO (Pos.iter xO p k)), IH.
    rewrite Pos2Z.inj_succ, Z.pow_succ_r by lia. lia.
Qed.

(** [float(h)] is exact for sizes Pillow can hold. *)
Lemma float_of_int_exact (h : Z) :
  0 < h < 2 ^ 31 ->
  exists m e,
    float_of_int h = Ok (S754_finite false m e) /\
    -52 <= e /\ Zdigits2 (Z.pos m) + e <= 32 /\
    (float_value (S754_finite false m e) == inject_Z h)%Q.
Proof.
  intros Hh. unfold float_of_int.
  destruct h as [| p | p]; try lia.
  cbn [binary_normalize]. unfold binary_round, shl_align.
  assert (Hd : 1 <= Zdigits2 (Z.pos p) <= 31).
  { split; [simpl; lia | apply Zdigits2_le; lia]. }
  cbn [Zdigits2] in Hd. rewrite fexp_le.
  destruct (Z.max (Z.pos (digits2_pos p) + 0 - 53) (-1074) - 0)
    as [| k | k] eqn:Ek; try lia.
  assert (Hmz : Z.pos (Pos.iter xO p k) = Z.pos p * 2 ^ Z.pos k)
    by apply Zpos_iter_xO.
  assert (Hdz : Zdigits2 (Z.pos (Pos.iter xO p k)) = 53).
  { cbn [Zdigits2]. rewrite digits2_pos_iter_xO. lia. }
  set (ez := Z.max (Z.pos (digits2_pos p) + 0 - 53) (-1074)) in *.
  assert (Hloc : located (Z.pos (Pos.iter xO p k)) loc_Exact
                    (Z.pos (Pos.iter xO p k)) 1)
    by (unfold located; split; lia).
  destruct (binary_round_aux_relative false (Z.pos (Pos.iter xO p k)) ez
              loc_Exact (Z.pos (Pos.iter xO p k)) 1
              ltac:(lia) ltac:(lia) Hloc ltac:(lia) ltac:(lia) ltac:(lia)
              ltac:(lia) (or_introl eq_refl))
    as (m3 & e3 & -> & Hee & Hd3 & _ & Hexact).
  specialize (Hexact eq_refl ltac:(lia)).
  cbn [is_finite]. exists m3, e3. split; [reflexivity |].
  split; [lia |]. split; [lia |].
  rewrite (float_value_scaled m3 e3 (Z.pos k)) by lia.
  replace (e3 + Z.pos k) with (e3 - ez) by lia.
  rewrite Hexact, Hmz.
  assert (Hp : 0 < 2 ^ Z.pos k) by (apply Z.pow_pos_nonneg; lia).
  unfold Qeq, inject_Z; cbn [Qnum Qden]. rewrite Z2Pos.id by lia. lia.
Qed.

(** The product of two positive floats of moderate size: a positive
    float within [2^-53] of the exact product, relatively. *)
Lemma float_mul_accurate (mx my : positive) (ex ey : Z) :
  -200 <= ex -> -200 <= ey ->
  Zdigits2 (Z.pos mx) + ex <= 100 -> Zdigits2 (Z.pos my) + ey <= 100 ->
  exists m e,
    float_mul (S754_finite false mx ex) (S754_finite false my ey)
      = S754_finite false m e /\
    (float_value (S754_finite false mx ex)
       * float_value (S754_finite false my ey) * (1 - unit_roundoff)
       <= float_value (S754_finite false m e))%Q /\
    (float_value (S754_finite false m e)
       <= float_value (S754_finite false mx ex)
          * float_value (S754_finite false my ey) * (1 + unit_roundoff))%Q.
Proof.
  intros Hex Hey Hdx Hdy. unfold float_mul. cbn [SFmul xorb].
  pose proof (Zdigits2_mul (Z.pos mx) (Z.pos my) ltac:(lia) ltac:(lia)) as Hdm.
  assert (Hd1 : 1 <= Zdigits2 (Z.pos (mx * my))) by (simpl; lia).
  assert (Hdx1 : 1 <= Zdigits2 (Z.pos mx)) by (simpl; lia).
  assert (Hdy1 : 1 <= Zdigits2 (Z.pos my)) by (simpl; lia).
  rewrite <- Pos2Z.inj_mul in Hdm.
  assert (Hloc : located (Z.pos (mx * my)) loc_Exact (Z.pos (mx * my)) 1)
    by (unfold located; split; lia).
  destruct (binary_round_aux_relative false (Z.pos (mx * my)) (ex + ey)
              loc_Exact (Z.pos (mx * my)) 1
              ltac:(lia) ltac:(lia) Hloc ltac:(lia) ltac:(lia) ltac:(lia)
              ltac:(lia) (or_introl eq_refl))
    as (m3 & e3 & -> & Hee & Hd3 & Hrel & _).
  exists m3, e3. split; [reflexivity |].
  set (kx := Z.max 0 (- ex)). set (ky := Z.max 0 (- ey)).
  assert (Hkx : 0 <= kx /\ 0 <= ex + kx) by (unfold kx; lia).
  assert (Hky : 0 <= ky /\ 0 <= ey + ky) by (unfold ky; lia).
  clearbody kx ky.
  rewrite (float_value_scaled mx ex kx), (float_value_scaled my ey ky),
    (float_value_scaled m3 e3 (kx + ky)) by lia.
  assert (Hpx : 0 < 2 ^ kx) by (apply Z.pow_pos_nonneg; lia).
  assert (Hpy : 0 < 2 ^ ky) by (apply Z.pow_pos_nonneg; lia).
  assert (Hpk : 2 ^ (kx + ky) = 2 ^ kx * 2 ^ ky) by (apply Z.pow_add_r; lia).
  set (P := 2 ^ (ex + ey + (kx + ky))).
  assert (HP : 0 < P) by (apply Z.pow_pos_nonneg; lia).
  assert (HA : Z.pos m3 * 2 ^ (e3 + (kx + ky))
               = Z.pos m3 * 2 ^ (e3 - (ex + ey)) * P).
  { unfold P. rewrite <- Z.mul_assoc.
    rewrite <- (Z.pow_add_r 2 (e3 - (ex + ey)) (ex + ey + (kx + ky))) by lia.
    f_equal. f_equal. lia. }
  assert (HM : Z.pos mx * 2 ^ (ex + kx) * (Z.pos my * 2 ^ (ey + ky))
               = Z.pos (mx * my) * P).
  { unfold P. rewrite Pos2Z.inj_mul.
    replace (ex + ey + (kx + ky)) with ((ex + kx) + (ey + ky)) by lia.
    rewrite (Z.pow_add_r 2 (ex + kx) (ey + ky)) by lia. ring. }
  rewrite Z.mul_1_r in Hrel.
  unfold Qmult at 2 4. cbn [Qnum Qden]. rewrite HA, HM.
  replace (Z.to_pos (2 ^ kx) * Z.to_pos (2 ^ ky))%positive
    with (Z.to_pos (2 ^ (kx + ky)))
    by (rewrite Hpk; apply Z2Pos.inj_mul; lia).
  apply (scaled_error _ (2 ^ (kx + ky)) _ P); try lia.
Qed.

(** *** The height against the exact quotient *)

(** The arithmetic of the last step, on rationals: a value within two
    roundings of [a * c / b], itself below [2^50], cut to an integer
    [n], against an integer [R] nearest to [a * c / b]. *)
Lemma truncation_near_rounding (a b c vq vp n R : Q) :
  (0 < a -> 0 < b -> 0 < c ->
   a * (1 - unit_roundoff) <= vq * b -> vq * b <= a * (1 + unit_roundoff) ->
   vq * c * (1 - unit_roundoff) <= vp -> vp <= vq * c * (1 + unit_roundoff) ->
   n <= vp -> vp < n + 1 ->
   a * c <= 1125899906842624 * b ->
   - b <= 2 * (R * b - a * c) -> 2 * (R * b - a * c) <= b ->
   n < R + 1 /\ R - 1 < n + 1)%Q.
Proof.
  unfold unit_roundoff. intros Ha Hb Hc H1 H2 H3 H4 H5 H6 H7 H8 H9.
  assert (Hvq : (0 <= vq)%Q).
  { destruct (Qlt_le_dec vq 0) as [Hneg | Hpos]; [exfalso | exact Hpos]. nra. }
  assert (U1 : (vp * b <= a * c * (1 + (1 # 9007199254740992))
                           * (1 + (1 # 9007199254740992)))%Q) by nra.
  assert (L1 : (a * c * (1 - (1 # 9007199254740992))
                      * (1 - (1 # 9007199254740992)) <= vp * b)%Q) by nra.
  split.
  - assert ((n * b < (R + 1) * b)%Q) by nra. nra.
  - assert (((R - 1) * b < (n + 1) * b)%Q) by nra. nra.
Qed.

(** The height computed in binary64 against the exact quotient
    [t * h / w]: for sizes Pillow can hold and a quotient below [2^50],
    [int((t / w) * h)] is an integer nearest to [t * h / w], or the one
    below it. *)
Lemma scaled_height_near_exact (t w h : Z) :
  0 <= t < 2 ^ 31 -> 0 < w < 2 ^ 31 -> 0 <= h < 2 ^ 31 ->
  t * h <= 2 ^ 50 * w ->
  exists n,
    scaled_height t w h = Ok n /\
    forall R, nearest_integer R (t * h) w -> R - 1 <= n <= R.
Proof.
  intros Ht Hw Hh Hbound. unfold scaled_height, nearest_integer.
  destruct (Z.eq_dec t 0) as [-> | Ht0].
  { (* t = 0 *)
    unfold int_truediv.
    replace (w =? 0) with false by (symmetry; apply Z.eqb_neq; lia).
    destruct w as [| pw | pw]; try lia. cbn [exact_int SFdiv is_finite bind].
    unfold mul_float_num, to_float.
    destruct (float_of_int_within h ltac:(lia)) as (fh & -> & Hfh).
    cbn [bind].
    exists 0. split.
    - destruct fh; cbn [within] in Hfh; try contradiction; reflexivity.
    - intros R HR. nia. }
  destruct (Z.eq_dec h 0) as [-> | Hh0].
  { (* h = 0 *)
    destruct (int_truediv_within t w ltac:(lia) ltac:(lia)) as (q & -> & Hq).
    cbn [bind]. unfold mul_float_num, to_float, float_of_int.
    cbn [binary_normalize is_finite bind].
    exists 0. split.
    - destruct q; cbn [within] in Hq; try contradiction; reflexivity.
    - intros R HR. nia. }
  destruct (int_truediv_accurate t w ltac:(lia) ltac:(lia))
    as (mq & eq & -> & Heq & Hdq & Hq1 & Hq2).
  cbn [bind]. unfold mul_float_num, to_float.
  destruct (float_of_int_exact h ltac:(lia))
    as (mh & eh & -> & Heh & Hdh & Hvh).
  cbn [bind].
  destruct (float_mul_accurate mq mh eq eh ltac:(lia) ltac:(lia)
              ltac:(lia) ltac:(lia))
    as (mp & ep & -> & Hp1 & Hp2).
  destruct (int_of_float_finite (S754_finite false mp ep) eq_refl) as (n & Hn).
  exists n. split; [exact Hn |].
  intros R HR.
  apply int_of_float_truncates in Hn. destruct Hn as (_ & Hup & _).
  assert (Hpos : (0 <= float_value (S754_finite false mp ep))%Q).
  { unfold float_value. destruct ep as [| p | p];
      unfold Qle, inject_Z; cbn [Qnum Qden];
      first [lia | pose proof (Z.pow_pos_nonneg 2 (Z.pos p)); nia]. }
  destruct (Hup Hpos) as [Hn1 Hn2].
  rewrite Hvh in Hp1, Hp2.
  assert (Qt : (0 < inject_Z t)%Q) by (unfold Qlt, inject_Z; cbn [Qnum Qden]; lia).
  assert (Qw : (0 < inject_Z w)%Q) by (unfold Qlt, inject_Z; cbn [Qnum Qden]; lia).
  assert (Qh : (0 < inject_Z h)%Q) by (unfold Qlt, inject_Z; cbn [Qnum Qden]; lia).
  assert (Qn : (float_value (S754_finite false mp ep) < inject_Z n + 1)%Q)
    by (rewrite inject_Z_plus in Hn2; exact Hn2).
  assert (Qb : (inject_Z t * inject_Z h
                <= 1125899906842624 * inject_Z w)%Q).
  { change (2 ^ 50) with 1125899906842624 in Hbound.
    unfold Qle, Qmult, inject_Z; cbn [Qnum Qden]. lia. }
  assert (QR1 : (- inject_Z w
                 <= 2 * (inject_Z R * inject_Z w
                         - inject_Z t * inject_Z h))%Q).
  { unfold Qle, Qminus, Qplus, Qmult, Qopp, inject_Z; cbn [Qnum Qden]. lia. }
  assert (QR2 : (2 * (inject_Z R * inject_Z w - inject_Z t * inject_Z h)
                 <= inject_Z w)%Q).
  { unfold Qle, Qminus, Qplus, Qmult, Qopp, inject_Z; cbn [Qnum Qden]. lia. }
  destruct (truncation_near_rounding _ _ _ _ _ _ _
              Qt Qw Qh Hq1 Hq2 Hp1 Hp2 Hn1 Qn Qb QR1 QR2) as [G1 G2].
  unfold Qlt, Qminus, Qplus, Qopp, inject_Z in G1, G2; cbn [Qnum Qden] in G1, G2.
  lia.
Qed.

(* ================================================================= *)
(** ** [apply_levels] never raises *)

Lemma mapM_Ok {A B : Type} (f : A -> result B) (xs : list A) :
  (forall x, In x xs -> exists y, f x = Ok y) ->
  exists ys, mapM f xs = Ok ys /\ length ys = length xs.
Proof.
  induction xs as [| x xs IH]; intros Hf.
  - exists []. split; reflexivity.
  - destruct (Hf x (or_introl eq_refl)) as (y & Hy).
    destruct IH as (ys & Hys & Hlen);
      [intros z Hz; apply Hf; right; exact Hz |].
    exists (y :: ys). cbn [mapM]. rewrite Hy; cbn [bind].
    rewrite Hys; cbn [bind]. split; [reflexivity |].
    cbn [length]. rewrite Hlen. reflexivity.
Qed.

(** Every entry of the table is computed without an exception: the
    division is reached only for [black_point < i < white_point], where
    the span is not zero, and the floats involved are far from
    overflow. *)
Lemma levels_entry_total (black_point white_point i : Z) :
  Z.abs black_point < 2 ^ 30 -> Z.abs white_point < 2 ^ 30 ->
  0 <= i < 256 ->
  exists v, levels_entry black_point white_point i = Ok v.
Proof.
  intros Hb Hw Hi. unfold levels_entry.
  destruct (i <=? black_point) eqn:E1; [eexists; reflexivity |].
  destruct (i >=? white_point) eqn:E2; [eexists; reflexivity |].
  apply Z.leb_gt in E1.
  assert (E3 : i < white_point).
  { destruct (Z_lt_ge_dec i white_point) as [Hlt | Hge]; [exact Hlt |].
    assert (G : (i >=? white_point) = true) by (apply Z.geb_le; lia).
    rewrite G in E2. discriminate E2. }
  destruct (int_truediv_within (i - black_point) (white_point - black_point))
    as (q & -> & Hq); [lia | lia |].
  cbn [bind]. unfold mul_float_num, to_float.
  destruct (float_of_int_within 255) as (f255 & -> & Hf); [simpl; lia |].
  cbn [bind].
  assert (H : within 65 12 (float_mul q f255))
    by (apply (float_mul_within 32 0 32 0 12); (assumption || lia)).
  apply int_of_float_finite. exact (within_finite _ _ _ H).
Qed.

Section LevelsTotal.
Context {backend : Backend}.

Lemma apply_levels_total (image : Image) (black_point white_point : Z) :
  Z.abs black_point < 2 ^ 30 -> Z.abs white_point < 2 ^ 30 ->
  exists out,
    apply_levels image black_point white_point = Ok out /\
    mode out = ML /\ width out = width image /\ height out = height image.
Proof.
  intros Hb Hw. unfold apply_levels, levels_lut.
  destruct (mapM_Ok (levels_entry black_point white_point) (range 256))
    as (lut & -> & Hlen).
  { intros i Hi. apply In_range in Hi.
    apply levels_entry_total; assumption. }
  cbn [bind]. rewrite point_Ok.
  - eexists. split; [reflexivity |]. cbn [mode width height].
    split; [apply to_grayscale_mode |]. apply to_grayscale_size.
  - apply to_grayscale_mode.
  - rewrite Hlen. apply range_length. lia.
Qed.

End LevelsTotal.

(* ================================================================= *)
(** ** Millimetres to pixels *)

(** C3, at the input the claim names: 50 mm at 300 DPI give 590
    pixels, where rounding would give 591. *)
Lemma target_width_px_50mm_300dpi :
  target_width_px (Int 50) (Int 300) = Ok 590 /\
  rounded_width_px (Int 50) (Int 300) = Ok 591 /\
  target_width_px (Int 50) (Int 300) <> rounded_width_px (Int 50) (Int 300).
Proof.
  split; [vm_compute; reflexivity |].
  split; [vm_compute; reflexivity |].
  vm_compute. discriminate.
Qed.

(** C3 (as the code has it).  The target width in pixels is
    [int(mm / 25.4 * dpi)]: whatever [target_width_px] returns is the
    float product [mm / 25.4 * dpi] cut toward zero, so that it lies
    between zero and the product and less than one pixel away from it.
    The function returns for every whole number of millimetres and
    every whole DPI below [2^31].  With 50 mm at 300 DPI the width is
    590 pixels. *)
Theorem target_width_px_truncates :
  (forall (target_width_mm current_dpi : num) (n : Z),
     target_width_px target_width_mm current_dpi = Ok n ->
     exists inch product,
       truediv target_width_mm (Float lit_25_4) = Ok inch /\
       mul_float_num inch current_dpi = Ok product /\
       is_finite product = true /\
       ((0 <= float_value product)%Q ->
          (inject_Z n <= float_value product)%Q /\
          (float_value product < inject_Z (n + 1))%Q) /\
       ((float_value product <= 0)%Q ->
          (inject_Z (n - 1) < float_value product)%Q /\
          (float_value product <= inject_Z n)%Q)) /\
  (forall mm dpi : Z,
     Z.abs mm < 2 ^ 31 -> Z.abs dpi < 2 ^ 31 ->
     exists n, target_width_px (Int mm) (Int dpi) = Ok n) /\
  target_width_px (Int 50) (Int 300) = Ok 590.
Proof.
  split; [| split; [exact target_width_px_returns | vm_compute; reflexivity]].
  intros mm dpi n H. unfold target_width_px in H.
  apply bind_Ok in H. destruct H as (inch & Hinch & H).
  apply bind_Ok in H. destruct H as (product & Hprod & H).
  exists inch, product. split; [exact Hinch |]. split; [exact Hprod |].
  apply int_of_float_truncates. exact H.
Qed.

Lemma target_width_px_truncates_witness :
  exists n product,
    target_width_px (Int 100) (Int 300) = Ok n /\
    mul_float_num (S754_finite false 8865353597186016 (-51)) (Int 300)
      = Ok product /\
    (inject_Z n <= float_value product)%Q /\
    (float_value product < inject_Z (n + 1))%Q.
Proof.
  destruct target_width_px_truncates as (Hcut & Hret & _).
  destruct (Hret 100 300) as (n & Hn); [simpl; lia | simpl; lia |].
  destruct (Hcut (Int 100) (Int 300) n Hn)
    as (inch & product & Hinch & Hprod & Hfin & Hup & _).
  assert (Einch : truediv (Int 100) (Float lit_25_4)
                  = Ok (S754_finite false 8865353597186016 (-51)))
    by (vm_compute; reflexivity).
  rewrite Einch in Hinch. injection Hinch as <-.
  exists n, product. split; [exact Hn |]. split; [exact Hprod |].
  apply Hup.
  assert (Eprod : mul_float_num (S754_finite false 8865353597186016 (-51))
                    (Int 300)
                  = Ok (S754_finite false 5194543123351181 (-42)))
    by (vm_compute; reflexivity).
  rewrite Eprod in Hprod. injection Hprod as <-.
  unfold float_value, Qle; simpl. lia.
Defined.

(** At the default 300 DPI and a whole number of millimetres up to one
    metre, the binary64 computation agrees with the exact quotient
    [mm * 300 / 25.4] cut to an integer. *)
Lemma target_width_px_300dpi_table (mm : Z) :
  1 <= mm <= 1000 ->
  target_width_px (Int mm) (Int 300) = Ok (mm * 3000 / 254).
Proof.
  intros Hmm.
  assert (T : forallb
            (fun k => match target_width_px (Int k) (Int 300) with
                      | Ok n => n =? k * 3000 / 254
                      | Raise _ => false
                      end)
            (map (fun k => k + 1) (range 1000)) = true)
    by (vm_compute; reflexivity).
  rewrite forallb_forall in T.
  specialize (T mm).
  destruct (target_width_px (Int mm) (Int 300)) as [n | e].
  - f_equal. apply Z.eqb_eq. apply T.
    apply in_map_iff. exists (mm - 1). split; [lia |]. apply In_range. lia.
  - exfalso. enough (false = true) by discriminate. apply T.
    apply in_map_iff. exists (mm - 1). split; [lia |]. apply In_range. lia.
Qed.

(* ================================================================= *)
(** ** Heights after resizing *)

Lemma scaled_height_within_one (t w h n : Z) :
  scaled_height t w h = Ok n ->
  exists r, rounded_height t w h = Ok r /\ Z.abs (n - r) <= 1.
Proof.
  unfold scaled_height, rounded_height. intros H.
  apply bind_Ok in H. destruct H as (ratio & -> & H). cbn [bind].
  apply bind_Ok in H. destruct H as (product & -> & H). cbn [bind].
  apply int_round_within_one. exact H.
Qed.

Lemma resized_height_within_one (t w h n : Z) :
  resized_height t w h = Ok n ->
  exists r, rounded_height t w h = Ok r /\ Z.abs (n - r) <= 1.
Proof.
  unfold resized_height, rounded_height. intros H.
  apply bind_Ok in H. destruct H as (scale & -> & H). cbn [bind].
  apply bind_Ok in H. destruct H as (product & Hp & H).
  unfold mul_num_float in Hp. unfold mul_float_num.
  apply bind_Ok in Hp. destruct Hp as (fh & -> & Hp).
  cbn [bind]. injection Hp as <-.
  rewrite float_mul_comm. apply int_round_within_one. exact H.
Qed.

Section ResizeHeights.
Context {backend : Backend}.

Lemma preper_image_inv (image g d : Image) (label_width : Z) :
  preper_image image label_width = Ok (g, d) ->
  width g = label_width /\ width d = label_width /\
  height d = height g /\
  mode g = ML /\ mode d = M1 /\
  (width image <> label_width ->
     scaled_height label_width (width image) (height image) = Ok (height g)) /\
  (width image = label_width -> height g = height image).
Proof.
  unfold preper_image. intros H.
  apply bind_Ok in H. destruct H as (flat & Hflat & H).
  destruct (flatten_alpha_size _ _ Hflat) as [Hw Hh].
  unfold size in H. rewrite Hw, Hh in H.
  apply bind_Ok in H. destruct H as (resized & Hres & H).
  injection H as <- <-.
  destruct (convert_size (to_grayscale resized) M1) as [Hcw Hch].
  destruct (to_grayscale_size resized) as [Hgw Hgh].
  rewrite Hcw, Hch, Hgw, Hgh, convert_mode, to_grayscale_mode.
  destruct (width image =? label_width) eqn:E; cbn [negb] in Hres.
  - apply Z.eqb_eq in E. injection Hres as <-.
    rewrite Hw, Hh. repeat split; try assumption; try reflexivity.
    intros Hne. exfalso. apply Hne. exact E.
  - apply Z.eqb_neq in E.
    apply bind_Ok in Hres. destruct Hres as (nh & Hnh & Hres).
    destruct (resize_size _ _ _ _ _ Hres) as [-> ->].
    repeat split; try reflexivity; try assumption.
    all: intros H0; first [exact Hnh | exfalso; apply E; exact H0].
Qed.

Lemma resize_image_to_width_inv (image out : Image) (mm dpi : num)
    (label_width : Z) :
  resize_image_to_width image mm label_width dpi = Ok out ->
  exists t resized,
    target_width_px mm dpi = Ok t /\
    resized_height t (width image) (height image) = Ok (height resized) /\
    resize image (t, height resized) LANCZOS = Ok resized /\
    width resized = t /\
    height out = height resized /\
    width out = Z.max t label_width /\
    (label_width <= t -> out = resized) /\
    (t < label_width ->
       exists canvas,
         new MRGB (label_width, height resized) white_rgb = Ok canvas /\
         out = paste canvas resized ((label_width - t) / 2, 0)).
Proof.
  unfold resize_image_to_width. intros H.
  apply bind_Ok in H. destruct H as (t & Ht & H).
  apply bind_Ok in H. destruct H as (nh & Hnh & H).
  apply bind_Ok in H. destruct H as (resized & Hres & H).
  destruct (resize_size _ _ _ _ _ Hres) as [Hrw Hrh].
  exists t, resized. rewrite Hrh.
  split; [exact Ht |]. split; [exact Hnh |]. split; [exact Hres |].
  split; [exact Hrw |].
  destruct (t <? label_width) eqn:E.
  - apply Z.ltb_lt in E.
    apply bind_Ok in H. destruct H as (canvas & Hcanvas & H).
    injection H as <-.
    assert (Hc : width canvas = label_width /\ height canvas = nh).
    { unfold new in Hcanvas.
      destruct ((label_width <? 0) || (nh <? 0)); [discriminate |].
      injection Hcanvas as <-. split; reflexivity. }
    destruct Hc as [Hcw Hch].
    split; [exact Hch |]. split; [change (width canvas = Z.max t label_width); lia |].
    split; [intros; lia |].
    intros _. exists canvas. split; [exact Hcanvas | reflexivity].
  - apply Z.ltb_ge in E. injection H as <-.
    split; [exact Hrh |]. split; [lia |].
    split; [reflexivity |]. intros; lia.
Qed.

Lemma flatten_alpha_Ok (image : Image) :
  size_valid image ->
  exists flat,
    flatten_alpha image = Ok flat /\
    width flat = width image /\ height flat = height image.
Proof.
  intros [Hw Hh]. unfold flatten_alpha.
  destruct (mode_eqb (mode image) MRGBA) eqn:E.
  - unfold size, new.
    replace ((width image <? 0) || (height image <? 0)) with false
      by (symmetry; apply orb_false_iff; lia).
    cbn [bind]. unfold alpha_composite. cbn [mode width height].
    rewrite E, !Z.eqb_refl. cbn [mode_eqb andb bind].
    eexists. split; [reflexivity |]. split; reflexivity.
  - eexists. split; [reflexivity |]. split; reflexivity.
Qed.

(** [preper_image] returns whenever the resizing step has a size to
    resize to. *)
Lemma preper_image_returns (image : Image) (label_width n : Z) :
  size_valid image ->
  scaled_height label_width (width image) (height image) = Ok n ->
  1 <= label_width -> 1 <= n ->
  exists g d,
    preper_image image label_width = Ok (g, d) /\
    (width image <> label_width -> height g = n).
Proof.
  intros Hvalid Hn Hlw Hn1. unfold preper_image.
  destruct (flatten_alpha_Ok image Hvalid) as (flat & -> & Hw & Hh).
  cbn [bind]. unfold size. rewrite Hw, Hh.
  destruct (width image =? label_width) eqn:E; cbn [negb bind].
  - apply Z.eqb_eq in E. eexists. eexists. split; [reflexivity |].
    intros Hne. exfalso. apply Hne. exact E.
  - rewrite Hn. cbn [bind].
    destruct (resize_Ok flat label_width n BICUBIC Hlw Hn1) as (r & Hr).
    rewrite Hr. cbn [bind]. eexists. eexists. split; [reflexivity |].
    intros _. destruct (to_grayscale_size r) as [_ ->].
    apply resize_size in Hr. apply Hr.
Qed.

(** [resize_image_to_width] returns whenever the target size is at
    least one pixel each way. *)
Lemma resize_image_to_width_returns (image : Image) (mm dpi : num)
    (label_width t n : Z) :
  target_width_px mm dpi = Ok t ->
  resized_height t (width image) (height image) = Ok n ->
  1 <= t -> 1 <= n ->
  exists out,
    resize_image_to_width image mm label_width dpi = Ok out /\
    height out = n.
Proof.
  intros Ht Hn Ht1 Hn1. unfold resize_image_to_width.
  rewrite Ht. cbn [bind]. rewrite Hn. cbn [bind].
  destruct (resize_Ok image t n LANCZOS Ht1 Hn1) as (r & Hr).
  rewrite Hr. cbn [bind]. apply resize_size in Hr.
  destruct (t <? label_width) eqn:E.
  - apply Z.ltb_lt in E. unfold new.
    replace ((label_width <? 0) || (n <? 0)) with false
      by (symmetry; apply orb_false_iff; lia).
    cbn [bind]. eexists. split; reflexivity.
  - eexists. split; [reflexivity | apply Hr].
Qed.

(** C8.  When the pipeline resizes an image of size (w, h) to a width
    t, the resulting height is within one pixel of [round(t / w * h)]:
    in [preper_image] when w differs from the label width, with t the
    label width, and in [resize_image_to_width], with t the target
    width in pixels.  For sizes Pillow can hold (below [2^31]) and
    [w > 0], the height [int(t / w * h)] is always computed, both
    functions return when it is at least one pixel, and, the quotient
    being below [2^50], it is an integer nearest to the exact
    [t * h / w] or the integer below. *)
Theorem resize_height_within_one :
  forall (image : Image) (label_width : Z),
    (forall g d,
       width image <> label_width ->
       preper_image image label_width = Ok (g, d) ->
       exists r,
         rounded_height label_width (width image) (height image) = Ok r /\
         Z.abs (height g - r) <= 1 /\ height d = height g) /\
    (forall mm dpi t out,
       target_width_px mm dpi = Ok t ->
       resize_image_to_width image mm label_width dpi = Ok out ->
       exists r,
         rounded_height t (width image) (height image) = Ok r /\
         Z.abs (height out - r) <= 1) /\
    (forall t,
       0 < width image < 2 ^ 31 -> 0 <= height image < 2 ^ 31 ->
       0 <= t < 2 ^ 31 ->
       exists n r,
         scaled_height t (width image) (height image) = Ok n /\
         resized_height t (width image) (height image) = Ok n /\
         rounded_height t (width image) (height image) = Ok r /\
         Z.abs (n - r) <= 1 /\
         (t * height image <= 2 ^ 50 * width image ->
          forall R, nearest_integer R (t * height image) (width image) ->
                    R - 1 <= n <= R) /\
         (1 <= t -> 1 <= n ->
          (exists g d,
             preper_image image t = Ok (g, d) /\
             (width image <> t -> height g = n)) /\
          (forall mm dpi,
             target_width_px mm dpi = Ok t ->
             exists out,
               resize_image_to_width image mm label_width dpi = Ok out /\
               height out = n))).
Proof.
  intros image label_width. split; [| split].
  - intros g d Hne H.
    apply preper_image_inv in H.
    destruct H as (_ & _ & Hd & _ & _ & Hs & _).
    destruct (scaled_height_within_one _ _ _ _ (Hs Hne)) as (r & Hr & Hle).
    exists r. repeat split; assumption.
  - intros mm dpi t out Ht H.
    apply resize_image_to_width_inv in H.
    destruct H as (t' & resized & Ht' & Hnh & _ & _ & Hh & _).
    rewrite Ht in Ht'. injection Ht' as <-.
    destruct (resized_height_within_one _ _ _ _ Hnh) as (r & Hr & Hle).
    exists r. rewrite Hh. split; assumption.
  - intros t Hw Hh Ht.
    destruct (scaled_height_returns t (width image) (height image))
      as (n & Hn & Hn'); try lia.
    destruct (scaled_height_within_one _ _ _ _ Hn) as (r & Hr & Hle).
    exists n, r. repeat split; try assumption.
    + destruct (scaled_height_near_exact t (width image) (height image))
        as (n' & Hn2 & Hnear); try lia.
      rewrite Hn in Hn2. injection Hn2 as <-.
      apply Hnear. assumption.
    + destruct (scaled_height_near_exact t (width image) (height image))
        as (n' & Hn2 & Hnear); try lia.
      rewrite Hn in Hn2. injection Hn2 as <-.
      apply Hnear. assumption.
    + apply (preper_image_returns image t n); try assumption.
      unfold size_valid. lia.
    + intros mm dpi Hmm.
      apply (resize_image_to_width_returns image mm dpi label_width t n);
        assumption.
Qed.

End ResizeHeights.

Lemma resize_height_within_one_witness :
  (exists g d r,
     preper_image poster 696 = Ok (g, d) /\
     rounded_height 696 1000 1001 = Ok r /\ Z.abs (height g - r) <= 1) /\
  (exists out r,
     resize_image_to_width poster (Int 50) 696 (Int 300) = Ok out /\
     rounded_height 590 1000 1001 = Ok r /\ Z.abs (height out - r) <= 1) /\
  (exists n,
     scaled_height 696 1000 1001 = Ok n /\ 697 - 1 <= n <= 697).
Proof.
  destruct (resize_height_within_one poster 696) as (Hp & Hr & Ht).
  split; [| split].
  - destruct (bind_value (preper_image poster 696) (fun _ => tt) tt)
      as ([g d] & E & _); [vm_compute; reflexivity |].
    destruct (Hp g d) as (r & Hr' & Hle & _).
    + simpl. lia.
    + exact E.
    + exists g, d, r. repeat split; assumption.
  - destruct (bind_value
                (resize_image_to_width poster (Int 50) 696 (Int 300))
                (fun _ => tt) tt)
      as (out & E & _); [vm_compute; reflexivity |].
    destruct (Hr (Int 50) (Int 300) 590 out) as (r & Hr' & Hle).
    + vm_compute. reflexivity.
    + exact E.
    + exists out, r. repeat split; assumption.
  - destruct (Ht 696) as (n & r & Hn & _ & _ & _ & Hnear & _).
    + simpl. lia.
    + simpl. lia.
    + lia.
    + exists n. split; [exact Hn |].
      apply (Hnear ltac:(simpl; lia) 697).
      unfold nearest_integer. simpl. lia.
Defined.

(* ================================================================= *)
(** ** Tiling *)

Lemma range_snoc (n : Z) : 1 <= n -> range n = range (n - 1) ++ [n - 1].
Proof.
  intros Hn. unfold range.
  replace (Z.to_nat n) with (Z.to_nat (n - 1) + 1)%nat by lia.
  rewrite seq_app, map_app. simpl. repeat f_equal. lia.
Qed.

Lemma sum_constant (c : Z) (xs : list Z) :
  fold_right Z.add 0 (map (fun _ => c) xs) = Z.of_nat (length xs) * c.
Proof.
  induction xs as [| x xs IH]; [reflexivity |].
  cbn [map fold_right length]. rewrite IH. lia.
Qed.

Lemma sum_app (xs ys : list Z) :
  fold_right Z.add 0 (xs ++ ys) = fold_right Z.add 0 xs + fold_right Z.add 0 ys.
Proof.
  induction xs as [| x xs IH]; simpl; [reflexivity | rewrite IH; lia].
Qed.

Lemma tile_heights_sum (tile_height remainder num_rows : Z) :
  1 <= num_rows ->
  fold_right Z.add 0
    (map (tile_height_at tile_height remainder num_rows) (range num_rows))
  = num_rows * tile_height + remainder.
Proof.
  intros Hn. rewrite (range_snoc num_rows Hn), map_app, sum_app.
  rewrite (map_ext_in _ (fun _ => tile_height)).
  - rewrite sum_constant, range_length by lia.
    unfold tile_height_at. simpl. rewrite Z.eqb_refl. lia.
  - intros i Hi. apply In_range in Hi. unfold tile_height_at.
    replace (i =? num_rows - 1) with false by (symmetry; apply Z.eqb_neq; lia).
    lia.
Qed.

Section Tiling.
Context {backend : Backend}.

Lemma crop_Ok (im : Image) (x0 y0 x1 y1 : Z) :
  x0 <= x1 -> y0 <= y1 ->
  exists tile,
    crop im (x0, y0, x1, y1) = Ok tile /\
    mode tile = mode im /\ width tile = x1 - x0 /\ height tile = y1 - y0 /\
    forall x y b, 0 <= x + x0 < width im -> 0 <= y + y0 < height im ->
      px tile x y b = px im (x + x0) (y + y0) b.
Proof.
  intros Hx Hy. unfold crop.
  replace (x1 <? x0) with false by (symmetry; apply Z.ltb_ge; lia).
  replace (y1 <? y0) with false by (symmetry; apply Z.ltb_ge; lia).
  eexists. split; [reflexivity |]. cbn [mode width height px].
  repeat split. intros x y b Hbx Hby.
  replace (0 <=? x + x0) with true by (symmetry; apply Z.leb_le; lia).
  replace (x + x0 <? width im) with true by (symmetry; apply Z.ltb_lt; lia).
  replace (0 <=? y + y0) with true by (symmetry; apply Z.leb_le; lia).
  replace (y + y0 <? height im) with true by (symmetry; apply Z.ltb_lt; lia).
  reflexivity.
Qed.

Lemma crop_inv (im tile : Image) (x0 y0 x1 y1 : Z) :
  crop im (x0, y0, x1, y1) = Ok tile ->
  mode tile = mode im /\ width tile = x1 - x0 /\ height tile = y1 - y0.
Proof.
  unfold crop. destruct (x1 <? x0); [discriminate |].
  destruct (y1 <? y0); [discriminate |].
  intros H. injection H as <-. repeat split.
Qed.

(** Whatever the loop returns extends [tiles] by one tile per index,
    each as wide as the image and of the height the loop computes. *)
Lemma tile_loop_inv (image : Image) (tile_height remainder num_rows : Z) :
  forall (indices : list Z) (tiles : list Image) (y_offset : Z)
         (out : list Image),
    tile_loop image tile_height remainder num_rows indices tiles y_offset
      = Ok out ->
    exists added,
      out = tiles ++ added /\
      map height added
        = map (tile_height_at tile_height remainder num_rows) indices /\
      Forall (fun t => width t = width image /\ mode t = mode image) added.
Proof.
  induction indices as [| i rest IH]; intros tiles y_offset out H.
  - simpl in H. injection H as <-. exists []. rewrite app_nil_r.
    repeat split. constructor.
  - cbn [tile_loop] in H.
    apply bind_Ok in H. destruct H as (tile & Htile & H).
    apply crop_inv in Htile. destruct Htile as (Hm & Hw & Hh).
    apply IH in H. destruct H as (added & -> & Hheights & Hall).
    exists (tile :: added). rewrite <- app_assoc. split; [reflexivity |].
    split.
    + cbn [map]. rewrite Hheights. f_equal. rewrite Hh.
      unfold tile_height_at. lia.
    + constructor; [| exact Hall]. split; [lia | exact Hm].
Qed.

(** The loop returns when the image has a width and no tile height is
    negative. *)
Lemma tile_loop_Ok (image : Image) (tile_height remainder num_rows : Z) :
  0 <= width image ->
  forall (indices : list Z) (tiles : list Image) (y_offset : Z),
    (forall i, In i indices ->
       0 <= tile_height_at tile_height remainder num_rows i) ->
    exists out,
      tile_loop image tile_height remainder num_rows indices tiles y_offset
        = Ok out.
Proof.
  intros Hw. induction indices as [| i rest IH]; intros tiles y_offset Hpos.
  - eexists. reflexivity.
  - cbn [tile_loop].
    destruct (crop_Ok image 0 y_offset (width image)
                (y_offset + tile_height_at tile_height remainder num_rows i))
      as (tile & Htile & _).
    + exact Hw.
    + specialize (Hpos i (or_introl eq_refl)). lia.
    + unfold tile_height_at in Htile. rewrite Htile. cbn [bind].
      apply IH. intros j Hj. apply Hpos. right. exact Hj.
Qed.

Lemma tile_source_valid (image src : Image) (label_width : Z) :
  size_valid image -> tile_source image label_width = Ok src ->
  size_valid src.
Proof.
  intros [Hw Hh] H. unfold tile_source in H.
  apply bind_Ok in H. destruct H as (flat & Hflat & H).
  destruct (flatten_alpha_size _ _ Hflat) as [Hfw Hfh].
  unfold size in H.
  destruct (width flat =? label_width) eqn:E; cbn [negb] in H.
  - injection H as <-. unfold size_valid. lia.
  - apply Z.eqb_neq in E.
    apply bind_Ok in H. destruct H as (nh & _ & H).
    unfold resize in H.
    replace (width flat =? label_width) with false in H
      by (symmetry; apply Z.eqb_neq; exact E).
    cbn [andb] in H.
    destruct ((label_width <? 1) || (nh <? 1)) eqn:B; [discriminate |].
    apply orb_false_iff in B. injection H as <-.
    unfold size_valid; cbn [width height]. lia.
Qed.

Lemma tile_source_width (image src : Image) (label_width : Z) :
  tile_source image label_width = Ok src -> width src = label_width.
Proof.
  intros H. unfold tile_source in H.
  apply bind_Ok in H. destruct H as (flat & Hflat & H).
  unfold size in H.
  destruct (width flat =? label_width) eqn:E; cbn [negb] in H.
  - injection H as <-. apply Z.eqb_eq. exact E.
  - apply bind_Ok in H. destruct H as (nh & _ & H).
    apply resize_size in H. apply H.
Qed.

(** C4.  Let H be the height of the image once resized to the label
    width and N >= 1.  Then [split_image_into_tiles] returns exactly N
    tiles whose heights sum to H; every tile but the last has height
    [H // N] and the last has height [H - (N - 1) * (H // N)]. *)
Theorem split_image_into_tiles_heights :
  forall (image src : Image) (label_width num_rows : Z),
    1 <= num_rows ->
    size_valid image ->
    tile_source image label_width = Ok src ->
    exists tiles,
      split_image_into_tiles image label_width num_rows = Ok tiles /\
      Z.of_nat (length tiles) = num_rows /\
      sum_heights tiles = height src /\
      (forall i, 0 <= i < num_rows - 1 ->
         height (nth (Z.to_nat i) tiles src) = height src / num_rows) /\
      height (nth (Z.to_nat (num_rows - 1)) tiles src)
        = height src - (num_rows - 1) * (height src / num_rows).
Proof.
  intros image src label_width num_rows Hn Hvalid Hsrc.
  destruct (tile_source_valid _ _ _ Hvalid Hsrc) as [Hw Hh].
  unfold split_image_into_tiles. rewrite Hsrc. cbn [bind].
  unfold cut_tiles, size.
  replace (num_rows =? 0) with false by (symmetry; apply Z.eqb_neq; lia).
  set (th := height src / num_rows).
  set (r := height src mod num_rows).
  assert (Hth : 0 <= th) by (apply Z.div_pos; lia).
  assert (Hr : 0 <= r < num_rows) by (apply Z.mod_pos_bound; lia).
  assert (Hdm : height src = num_rows * th + r)
    by (apply Z.div_mod; lia).
  destruct (tile_loop_Ok src th r num_rows Hw (range num_rows) [] 0)
    as (tiles & Htiles).
  { intros i _. unfold tile_height_at. destruct (i =? num_rows - 1); lia. }
  exists tiles. split; [exact Htiles |].
  apply tile_loop_inv in Htiles.
  destruct Htiles as (added & -> & Hheights & _). cbn [app].
  assert (Hlen : Z.of_nat (length added) = num_rows).
  { rewrite <- (length_map height), Hheights, length_map.
    apply range_length. lia. }
  assert (Hnth : forall i, 0 <= i < num_rows ->
            height (nth (Z.to_nat i) added src)
            = tile_height_at th r num_rows i).
  { intros i Hi. rewrite <- (map_nth height), Hheights.
    apply nth_range. exact Hi. }
  split; [exact Hlen |]. split; [| split].
  - unfold sum_heights. rewrite Hheights, tile_heights_sum by exact Hn. lia.
  - intros i Hi. rewrite Hnth by lia. unfold tile_height_at.
    replace (i =? num_rows - 1) with false by (symmetry; apply Z.eqb_neq; lia).
    lia.
  - rewrite Hnth by lia. unfold tile_height_at. rewrite Z.eqb_refl. lia.
Qed.

End Tiling.

Lemma split_image_into_tiles_heights_witness :
  exists src tiles,
    tile_source poster 696 = Ok src /\ height src = 696 /\
    split_image_into_tiles poster 696 2 = Ok tiles /\
    map height tiles = [348; 348] /\
    sum_heights tiles = height src.
Proof.
  destruct (bind_value (tile_source poster 696) height 696)
    as (src & Hsrc & Hh); [vm_compute; reflexivity |].
  destruct (split_image_into_tiles_heights poster src 696 2)
    as (tiles & Htiles & _ & Hsum & _).
  - lia.
  - unfold size_valid. simpl. lia.
  - exact Hsrc.
  - exists src, tiles. repeat split; try assumption.
    destruct (bind_value (split_image_into_tiles poster 696 2)
                (map height) [348; 348])
      as (ts & Hts & Hm); [vm_compute; reflexivity |].
    rewrite Htiles in Hts. injection Hts as ->. exact Hm.
Defined.

(* ================================================================= *)
(** ** Pasting onto an RGB canvas *)

Section Pasting.
Context {backend : Backend}.

Lemma new_Ok (m : Mode) (w h : Z) (color : list Z) :
  0 <= w -> 0 <= h ->
  new m (w, h) color
  = Ok {| mode := m; width := w; height := h;
          px := fun _ _ b => nth b color 0 |}.
Proof.
  intros Hw Hh. unfold new.
  replace ((w <? 0) || (h <? 0)) with false
    by (symmetry; apply orb_false_iff; lia).
  reflexivity.
Qed.

Lemma new_inv (m : Mode) (w h : Z) (color : list Z) (im : Image) :
  new m (w, h) color = Ok im ->
  im = {| mode := m; width := w; height := h;
          px := fun _ _ b => nth b color 0 |}.
Proof.
  unfold new. destruct ((w <? 0) || (h <? 0)); [discriminate |].
  intros H. injection H as <-. reflexivity.
Qed.

(** On an ["RGB"] destination, [paste] writes the colour of the source
    inside the box of the source and leaves the rest alone. *)
Lemma paste_onto_rgb (dst src : Image) (ox oy x y : Z) (b : nat) :
  mode dst = MRGB ->
  px (paste dst src (ox, oy)) x y b
  = if (ox <=? x) && (x <? ox + width src)
       && (oy <=? y) && (y <? oy + height src)
    then colour src (x - ox) (y - oy) b
    else px dst x y b.
Proof.
  intros Hm. cbn [paste px]. rewrite Hm.
  destruct ((ox <=? x) && (x <? ox + width src)
            && (oy <=? y) && (y <? oy + height src)); [| reflexivity].
  unfold convert.
  destruct (mode src) eqn:E; simpl; unfold colour; rewrite ?E; reflexivity.
Qed.

Lemma paste_shape (dst src : Image) (at_ : Z * Z) :
  mode (paste dst src at_) = mode dst /\
  width (paste dst src at_) = width dst /\
  height (paste dst src at_) = height dst.
Proof. destruct at_ as [ox oy]. repeat split. Qed.

(** C2 (as the code has it).  The grayscale and dithered images of
    [preper_image] and every tile of [split_image_into_tiles] have the
    width of the label.  The result of [resize_image_to_width] has the
    larger of the target width in pixels and the label width: it has
    the label width when the target is not wider than the label, and
    when the target is narrower the result is an ["RGB"] canvas of the
    label width, white outside the centred band that holds the resized
    image. *)
Theorem pipeline_output_widths :
  forall (image : Image) (label_width : Z),
    (forall g d,
       preper_image image label_width = Ok (g, d) ->
       width g = label_width /\ width d = label_width) /\
    (forall num_rows tiles,
       split_image_into_tiles image label_width num_rows = Ok tiles ->
       Forall (fun tile => width tile = label_width) tiles) /\
    (forall mm dpi out,
       resize_image_to_width image mm label_width dpi = Ok out ->
       exists t resized,
         target_width_px mm dpi = Ok t /\
         resize image (t, height out) LANCZOS = Ok resized /\
         width out = Z.max t label_width /\
         (t <= label_width -> width out = label_width) /\
         (t < label_width ->
            mode out = MRGB /\
            forall x y b,
              0 <= x < label_width -> 0 <= y < height out -> (b < 3)%nat ->
              px out x y b
              = if in_centre_band label_width t x
                then colour resized (x - (label_width - t) / 2) y b
                else 255)).
Proof.
  intros image label_width. split; [| split].
  - intros g d H. apply preper_image_inv in H.
    split; apply H.
  - intros num_rows tiles H. unfold split_image_into_tiles in H.
    apply bind_Ok in H. destruct H as (src & Hsrc & H).
    apply tile_source_width in Hsrc.
    unfold cut_tiles, size in H.
    destruct (num_rows =? 0); [discriminate |].
    apply tile_loop_inv in H. destruct H as (added & -> & _ & Hall).
    cbn [app]. apply Forall_impl with (2 := Hall).
    intros tile [Hw _]. rewrite Hw. exact Hsrc.
  - intros mm dpi out H. apply resize_image_to_width_inv in H.
    destruct H as (t & resized & Ht & _ & Hres & Hrw & Hh & Hw & _ & Hpad).
    exists t, resized. rewrite Hh.
    split; [exact Ht |]. split; [exact Hres |]. split; [exact Hw |].
    split; [intros; lia |].
    intros Hlt. destruct (Hpad Hlt) as (canvas & Hcanvas & ->).
    apply new_inv in Hcanvas. subst canvas.
    split; [reflexivity |].
    intros x y b Hx Hy Hb.
    rewrite paste_onto_rgb by reflexivity. cbn [px].
    unfold in_centre_band. rewrite Hrw.
    replace (0 <=? y) with true by (symmetry; apply Z.leb_le; lia).
    replace (y <? 0 + height resized) with true
      by (symmetry; apply Z.ltb_lt; lia).
    rewrite !andb_true_r, Z.sub_0_r.
    destruct (((label_width - t) / 2 <=? x)
              && (x <? (label_width - t) / 2 + t)); [reflexivity |].
    destruct b as [| [| [| b]]]; try reflexivity. lia.
Qed.

(* ================================================================= *)
(** ** Vertical concatenation *)

Lemma img_concat_v_Ok (im1 im2 : Image) (image_width : Z) :
  size_valid im1 -> 1 <= image_width ->
  exists canvas square,
    new MRGB (width im1, height im1 + image_width) black = Ok canvas /\
    resize im2 (image_width, image_width) BICUBIC = Ok square /\
    width square = image_width /\ height square = image_width /\
    img_concat_v im1 im2 image_width
    = Ok (paste (paste canvas im1 (0, 0)) square (0, height im1)).
Proof.
  intros [Hw Hh] Hs. unfold img_concat_v.
  rewrite new_Ok by lia. cbn [bind].
  destruct (resize_Ok im2 image_width image_width BICUBIC Hs Hs)
    as (square & Hsq).
  rewrite Hsq. cbn [bind].
  destruct (resize_size _ _ _ _ _ Hsq) as [Hsw Hsh].
  eexists. exists square. repeat split; try assumption; reflexivity.
Qed.

(** A side length below one pixel is refused: by [new] when the canvas
    would get a negative height, by [resize] otherwise.  The one way
    past [resize] is a second buffer that already has that size. *)
Lemma img_concat_v_refused (im1 im2 : Image) (image_width : Z) :
  image_width <= 0 -> size im2 <> (image_width, image_width) ->
  img_concat_v im1 im2 image_width = Raise ValueError.
Proof.
  intros Hw Hsize. unfold img_concat_v, new.
  destruct ((width im1 <? 0) || (height im1 + image_width <? 0));
    [reflexivity |].
  cbn [bind]. unfold resize.
  destruct ((width im2 =? image_width) && (height im2 =? image_width)) eqn:E.
  - exfalso. apply andb_true_iff in E. destruct E as [E1 E2].
    apply Z.eqb_eq in E1, E2. apply Hsize. unfold size. congruence.
  - replace (image_width <? 1) with true by (symmetry; apply Z.ltb_lt; lia).
    reflexivity.
Qed.

(** C9 (as the code has it).  For buffers [im1] and [im2] and a side
    length [w] of at least one pixel, [img_concat_v] returns a buffer
    of width [im1.width] and height [im1.height + w]; [im2] is resized
    to a [w] by [w] square, and that square is pasted below [im1], its
    corner at column 0 and row [im1.height].  For a side length [w] of
    zero or less the call returns no buffer: it raises [ValueError],
    unless [im2] already has the size [w] by [w]. *)
Theorem img_concat_v_size :
  forall (im1 im2 : Image) (image_width : Z),
    (size_valid im1 -> 1 <= image_width ->
     exists dst square,
       img_concat_v im1 im2 image_width = Ok dst /\
       width dst = width im1 /\
       height dst = height im1 + image_width /\
       resize im2 (image_width, image_width) BICUBIC = Ok square /\
       width square = image_width /\ height square = image_width /\
       forall x y b,
         0 <= x < Z.min image_width (width im1) ->
         height im1 <= y < height im1 + image_width ->
         px dst x y b = colour square x (y - height im1) b) /\
    (image_width <= 0 -> size im2 <> (image_width, image_width) ->
     img_concat_v im1 im2 image_width = Raise ValueError).
Proof.
  intros im1 im2 image_width.
  split; [| apply img_concat_v_refused].
  intros Hvalid Hs.
  destruct (img_concat_v_Ok im1 im2 image_width Hvalid Hs)
    as (canvas & square & Hcanvas & Hsq & Hsw & Hsh & Hdst).
  apply new_inv in Hcanvas. subst canvas.
  eexists. exists square. split; [exact Hdst |].
  repeat split; try assumption.
  intros x y b Hx Hy.
  rewrite paste_onto_rgb by reflexivity. rewrite Hsw, Hsh.
  replace (0 <=? x) with true by (symmetry; apply Z.leb_le; lia).
  replace (x <? 0 + image_width) with true by (symmetry; apply Z.ltb_lt; lia).
  replace (height im1 <=? y) with true by (symmetry; apply Z.leb_le; lia).
  replace (y <? height im1 + image_width) with true
    by (symmetry; apply Z.ltb_lt; lia).
  cbn [andb]. rewrite Z.sub_0_r. reflexivity.
Qed.

(** C10 (as the code has it).  For buffers [im1] and [im2] and a side
    length [w] of at least one pixel, [img_concat_v] returns an
    ["RGB"] buffer whose rows [0 .. im1.height) carry the colours of
    [im1] (sample for sample when [im1] is itself ["RGB"]), and in
    which the part of the bottom rows to the right of the pasted
    square, columns [w .. im1.width), is black.  For a side length [w]
    of zero or less there is no such buffer: the call raises
    [ValueError], unless [im2] already has the size [w] by [w]. *)
Theorem img_concat_v_frame :
  forall (im1 im2 : Image) (image_width : Z),
    (size_valid im1 -> 1 <= image_width ->
     exists dst,
       img_concat_v im1 im2 image_width = Ok dst /\
       mode dst = MRGB /\
       (forall x y b,
          0 <= x < width im1 -> 0 <= y < height im1 ->
          px dst x y b = colour im1 x y b) /\
       (mode im1 = MRGB ->
        forall x y,
          0 <= x < width im1 -> 0 <= y < height im1 ->
          getpixel dst x y = getpixel im1 x y) /\
       (forall x y,
          image_width <= x < width im1 ->
          height im1 <= y < height im1 + image_width ->
          getpixel dst x y = [0; 0; 0])) /\
    (image_width <= 0 -> size im2 <> (image_width, image_width) ->
     forall dst, img_concat_v im1 im2 image_width <> Ok dst).
Proof.
  intros im1 im2 image_width.
  split;
    [| intros Hw Hsize dst H;
       rewrite (img_concat_v_refused im1 im2 image_width Hw Hsize) in H;
       discriminate H].
  intros Hvalid Hs.
  destruct (img_concat_v_Ok im1 im2 image_width Hvalid Hs)
    as (canvas & square & Hcanvas & Hsq & Hsw & Hsh & Hdst).
  apply new_inv in Hcanvas. subst canvas.
  eexists. split; [exact Hdst |]. split; [reflexivity |].
  assert (Htop : forall x y b,
            0 <= x < width im1 -> 0 <= y < height im1 ->
            px (paste (paste {| mode := MRGB; width := width im1;
                                height := height im1 + image_width;
                                px := fun _ _ b => nth b black 0 |}
                             im1 (0, 0)) square (0, height im1)) x y b
            = colour im1 x y b).
  { intros x y b Hx Hy.
    rewrite paste_onto_rgb by reflexivity.
    replace (height im1 <=? y) with false by (symmetry; apply Z.leb_gt; lia).
    rewrite andb_false_r. cbn [andb].
    rewrite paste_onto_rgb by reflexivity.
    replace (0 <=? x) with true by (symmetry; apply Z.leb_le; lia).
    replace (x <? 0 + width im1) with true by (symmetry; apply Z.ltb_lt; lia).
    replace (0 <=? y) with true by (symmetry; apply Z.leb_le; lia).
    replace (y <? 0 + height im1) with true by (symmetry; apply Z.ltb_lt; lia).
    cbn [andb]. rewrite !Z.sub_0_r. reflexivity. }
  split; [exact Htop |]. split.
  - intros Hm x y Hx Hy. unfold getpixel.
    change (mode (paste _ square (0, height im1))) with MRGB.
    rewrite Hm. apply map_ext. intros b. rewrite Htop by assumption.
    unfold colour. rewrite Hm. reflexivity.
  - intros x y Hx Hy. unfold getpixel.
    change (mode (paste _ square (0, height im1))) with MRGB.
    apply map_ext_in with (g := fun b => nth b [0; 0; 0] 0) (l := seq 0 3).
    intros b _.
    rewrite paste_onto_rgb by reflexivity. rewrite Hsw.
    replace (x <? 0 + image_width) with false
      by (symmetry; apply Z.ltb_ge; lia).
    rewrite andb_false_r. cbn [andb].
    rewrite paste_onto_rgb by reflexivity.
    replace (y <? 0 + height im1) with false by (symmetry; apply Z.ltb_ge; lia).
    rewrite andb_false_r. cbn [px black].
    destruct b as [| [| [| b]]]; reflexivity.
Qed.

End Pasting.

(** C2, at a concrete input: a target of 100 mm at 300 DPI on a label
    696 pixels wide gives a buffer 1181 pixels wide. *)
Lemma resize_image_to_width_wider_than_label :
  exists out,
    resize_image_to_width gradient (Int 100) 696 (Int 300) = Ok out /\
    width out = 1181 /\ width out <> 696.
Proof.
  destruct (bind_value
              (resize_image_to_width gradient (Int 100) 696 (Int 300))
              width 1181)
    as (out & E & Hw); [vm_compute; reflexivity |].
  exists out. split; [exact E |]. split; [exact Hw |]. rewrite Hw. discriminate.
Qed.

(** C9, at a concrete input: with a side length of zero, the 696 by
    120 label and the 21 by 21 checkerboard give [ValueError] (the
    resize to 0 by 0 is refused), not a buffer 696 wide and 120 high. *)
Lemma img_concat_v_zero_width :
  size_valid label /\ size_valid checker /\
  img_concat_v label checker 0 = Raise ValueError /\
  ~ (exists dst,
       img_concat_v label checker 0 = Ok dst /\
       width dst = width label /\ height dst = height label + 0).
Proof.
  assert (E : img_concat_v label checker 0 = Raise ValueError)
    by (vm_compute; reflexivity).
  split; [unfold size_valid; simpl; lia |].
  split; [unfold size_valid; simpl; lia |].
  split; [exact E |].
  intros (dst & H & _). rewrite E in H. discriminate H.
Qed.

(** C10, at a concrete input: with a side length of zero, which is
    below the width of the first buffer, the 100 by 100 gradient and
    the 1000 by 1001 poster give [ValueError], not an ["RGB"] buffer
    that holds the rows of the gradient. *)
Lemma img_concat_v_no_rgb_buffer_at_zero :
  size_valid gradient /\ size_valid poster /\ 0 < width gradient /\
  img_concat_v gradient poster 0 = Raise ValueError /\
  ~ (exists dst,
       img_concat_v gradient poster 0 = Ok dst /\ mode dst = MRGB).
Proof.
  assert (E : img_concat_v gradient poster 0 = Raise ValueError)
    by (vm_compute; reflexivity).
  split; [unfold size_valid; simpl; lia |].
  split; [unfold size_valid; simpl; lia |].
  split; [simpl; lia |].
  split; [exact E |].
  intros (dst & H & _). rewrite E in H. discriminate H.
Qed.

Lemma pipeline_output_widths_witness :
  (exists g d,
     preper_image poster 696 = Ok (g, d) /\
     width g = 696 /\ width d = 696) /\
  (exists tiles,
     split_image_into_tiles poster 696 2 = Ok tiles /\
     Forall (fun tile => width tile = 696) tiles) /\
  (exists out,
     resize_image_to_width gradient (Int 50) 696 (Int 300) = Ok out /\
     width out = 696 /\ mode out = MRGB /\ getpixel out 0 0 = [255; 255; 255]).
Proof.
  pose proof (pipeline_output_widths poster 696) as (Hp & Ht & _).
  pose proof (pipeline_output_widths gradient 696) as (_ & _ & Hr).
  split; [| split].
  - destruct (bind_value (preper_image poster 696) (fun _ => tt) tt)
      as ([g d] & E & _); [vm_compute; reflexivity |].
    exists g, d. split; [exact E |]. exact (Hp g d E).
  - destruct (bind_value (split_image_into_tiles poster 696 2)
                (fun _ => tt) tt)
      as (tiles & E & _); [vm_compute; reflexivity |].
    exists tiles. split; [exact E |]. exact (Ht 2 tiles E).
  - destruct (bind_value
                (resize_image_to_width gradient (Int 50) 696 (Int 300))
                height 590)
      as (out & E & Hh); [vm_compute; reflexivity |].
    exists out. split; [exact E |].
    destruct (Hr (Int 50) (Int 300) out E)
      as (t & resized & Ht' & _ & Hw & Hle & Hpad).
    assert (T : target_width_px (Int 50) (Int 300) = Ok 590)
      by (vm_compute; reflexivity).
    rewrite T in Ht'. injection Ht' as <-.
    destruct Hpad as (Hm & Hpx); [lia |].
    split; [apply Hle; lia |]. split; [exact Hm |].
    unfold getpixel. rewrite Hm. cbn [bands seq map].
    rewrite !Hpx by lia. reflexivity.
Defined.

Lemma img_concat_v_size_witness :
  size_valid label /\ 1 <= 696 /\
  (exists dst,
     img_concat_v label checker 696 = Ok dst /\
     width dst = 696 /\ height dst = 120 + 696) /\
  -5 <= 0 /\ size checker <> (-5, -5) /\
  img_concat_v label checker (-5) = Raise ValueError.
Proof.
  split; [unfold size_valid; simpl; lia |]. split; [lia |].
  split; [| split; [lia | split; [discriminate |]]].
  - destruct (img_concat_v_size label checker 696) as [Hsize _].
    destruct Hsize as (dst & square & Hdst & Hw & Hh & _).
    + unfold size_valid; simpl; lia.
    + lia.
    + exists dst. repeat split; assumption.
  - destruct (img_concat_v_size label checker (-5)) as [_ Hraise].
    apply Hraise; [lia | discriminate].
Defined.

Lemma img_concat_v_frame_witness :
  size_valid label /\ 1 <= 200 /\
  (exists dst,
     img_concat_v label checker 200 = Ok dst /\
     mode dst = MRGB /\
     getpixel dst 10 10 = getpixel label 10 10 /\
     getpixel dst 300 130 = [0; 0; 0]) /\
  -200 <= 0 /\ size checker <> (-200, -200) /\
  forall dst, img_concat_v label checker (-200) <> Ok dst.
Proof.
  split; [unfold size_valid; simpl; lia |]. split; [lia |].
  split; [| split; [lia | split; [discriminate |]]].
  - destruct (img_concat_v_frame label checker 200) as [Hframe _].
    destruct Hframe as (dst & Hdst & Hm & _ & Htop & Hblack).
    + unfold size_valid; simpl; lia.
    + lia.
    + exists dst. split; [exact Hdst |]. split; [exact Hm |]. split.
      * apply Htop; simpl; (reflexivity || lia).
      * apply Hblack; simpl; lia.
  - destruct (img_concat_v_frame label checker (-200)) as [_ Hnone].
    apply Hnone; [lia | discriminate].
Defined.
